(** * recycle-ecs-instances: the recycle run, as a program over remote calls

    The script [recycle-ecs-instances.py] replaces every container instance
    of an ECS cluster that an auto scaling group manages.  It talks to two
    remote services (autoscaling and ecs) through boto3 and sleeps between
    polls.  Nothing else is observable, so a run is modelled by

    - the list of events it produces (each remote call with the reply it
      got, and each [sleep]), and
    - how it ends: normally, by an exception that propagates out of
      [handler], or still waiting for a reply.

    The remote services are not part of the script: a run is a function of
    the replies they give, in the order the calls are made. *)

From stdpp Require Import base list strings gmap.
From Stdlib Require Import ZArith Lia.

Local Open Scope string_scope.
Local Open Scope Z_scope.
Local Open Scope list_scope.

(** ** Values the script handles *)

(** The arguments [handler] is called with ([handler(False, False)] at the
    end of the script; an event dictionary and a context under Lambda). *)
Inductive PyVal :=
| PyNone
| PyBool (b : bool)
| PyInt (z : Z)
| PyStr (s : string)
| PyDict (items : list (string * string)).

(** The command line: [--asg-name], [--ecs-cluster], [--aws-region]. *)
Record Args := {
  asg_name : string;
  ecs_cluster : string;
  aws_region : string;
}.

(** One entry of ['AutoScalingGroups']: the two keys the script reads. *)
Record AutoScalingGroup := {
  DesiredCapacity : Z;
  MaxSize : Z;
}.

(** One entry of ['containerInstances']: the two keys the script reads. *)
Record ContainerInstance := {
  ec2InstanceId : string;
  runningTasksCount : Z;
}.

(** ** Remote calls, replies, events *)

Inductive Call :=
| suspend_processes (AutoScalingGroupName : string) (ScalingProcesses : list string)
| resume_processes (AutoScalingGroupName : string) (ScalingProcesses : list string)
| describe_auto_scaling_groups (AutoScalingGroupNames : list string)
| update_auto_scaling_group (AutoScalingGroupName : string) (MaxSize DesiredCapacity : Z)
| terminate_instance_in_auto_scaling_group (InstanceId : string)
    (ShouldDecrementDesiredCapacity : bool)
| list_container_instances (cluster : string)
| update_container_instances_state (cluster : string) (containerInstances : list string)
    (status : string)
| describe_container_instances (cluster : string) (containerInstances : list string).

(** What a remote call comes back with: a response dictionary (of which the
    script reads one key at most), or an error that boto3 raises. *)
Inductive Reply :=
| ROther
| RGroups (AutoScalingGroups : list AutoScalingGroup)
| RArns (containerInstanceArns : list string)
| RInstances (containerInstances : list ContainerInstance)
| RError (message : string).

Inductive Exn :=
| ClientError (message : string)
| KeyError (key : string)
| IndexError
| ValueError
| OverflowError.

(** A remote call with its reply ([None]: the call was made and the run is
    still waiting for the reply), or a [sleep]. *)
Inductive Event :=
| Remote (c : Call) (r : option Reply)
| Sleep (secs : Z).

Abbreviation Trace := (list Event).

(** ** Runs *)

Inductive Outcome (A : Type) :=
| Done (a : A)
| Raised (e : Exn)
| Pending.
Arguments Done {A} a.
Arguments Raised {A} e.
Arguments Pending {A}.

Record Run (A : Type) := MkRun {
  trace : Trace;
  outcome : Outcome A;
  rest : list Reply;
}.
Arguments MkRun {A} trace outcome rest.
Arguments trace {A} r.
Arguments outcome {A} r.
Arguments rest {A} r.

(** A computation consumes the replies that are still to come. *)
Definition M (A : Type) : Type := list Reply → Run A.

Definition prepend {A} (tr : Trace) (r : Run A) : Run A :=
  MkRun (tr ++ trace r) (outcome r) (rest r).

Definition ret {A} (a : A) : M A := λ rs, MkRun [] (Done a) rs.

Definition raise {A} (e : Exn) : M A := λ rs, MkRun [] (Raised e) rs.

Definition bind {A B} (m : M A) (k : A → M B) : M B := λ rs,
  let r := m rs in
  match outcome r with
  | Done a => prepend (trace r) (k a (rest r))
  | Raised e => MkRun (trace r) (Raised e) (rest r)
  | Pending => MkRun (trace r) Pending (rest r)
  end.

#[global] Instance M_ret : MRet M := @ret.
#[global] Instance M_bind : MBind M := λ A B k m, bind m k.

(** A remote call: the next reply is its result; an error reply is raised. *)
Definition invoke (c : Call) : M Reply := λ rs,
  match rs with
  | [] => MkRun [Remote c None] Pending []
  | RError msg :: rs' => MkRun [Remote c (Some (RError msg))] (Raised (ClientError msg)) rs'
  | r :: rs' => MkRun [Remote c (Some r)] (Done r) rs'
  end.

(** [time.sleep(secs)] for an integer [secs]: a number of seconds that does
    not fit the clock (more than [SLEEP_MAX] in absolute value, the seconds
    that 2^63 - 1 nanoseconds hold) raises [OverflowError], a negative one
    raises [ValueError]; otherwise the run sleeps. *)
Definition SLEEP_MAX : Z := 9223372036.

Definition sleep_check (secs : Z) : option Exn :=
  if bool_decide (secs < - SLEEP_MAX ∨ SLEEP_MAX < secs) then Some OverflowError
  else if bool_decide (secs < 0) then Some ValueError
  else None.

Definition sleep (secs : Z) : M unit := λ rs,
  match sleep_check secs with
  | Some e => MkRun [] (Raised e) rs
  | None => MkRun [Sleep secs] (Done tt) rs
  end.

(** Subscripts on a response: [resp['AutoScalingGroups']] and the like raise
    [KeyError] on a response without the key, [l[0]] raises [IndexError] on
    an empty list. *)
Definition get_AutoScalingGroups (r : Reply) : Exn + list AutoScalingGroup :=
  match r with
  | RGroups gs => inr gs
  | _ => inl (KeyError "AutoScalingGroups")
  end.

Definition get_containerInstanceArns (r : Reply) : Exn + list string :=
  match r with
  | RArns arns => inr arns
  | _ => inl (KeyError "containerInstanceArns")
  end.

Definition get_containerInstances (r : Reply) : Exn + list ContainerInstance :=
  match r with
  | RInstances cis => inr cis
  | _ => inl (KeyError "containerInstances")
  end.

Definition item0 {A} (l : list A) : Exn + A :=
  match l with
  | x :: _ => inr x
  | [] => inl IndexError
  end.

Definition lift {A} (x : Exn + A) : M A :=
  match x with
  | inr a => ret a
  | inl e => raise e
  end.

(** [while True: x = decode(call()); if stop(x): break; sleep(poll_interval)]

    Both polling loops of the script have this shape.  Each turn of the loop
    takes one reply, so the loop is by recursion on the replies to come; when
    they run out the loop is waiting for the reply to the call it just made.
    The [sleep] does not take a reply: it is written out here, an exception
    of it ends the loop.
    The value of [x] at the [break] is returned: the script reads it after
    the second loop. *)
Fixpoint poll_until {A} (c : Call) (decode : Reply → Exn + A) (stop : A → bool)
    (poll_interval : Z) (rs : list Reply) : Run A :=
  match rs with
  | [] => MkRun [Remote c None] Pending []
  | RError msg :: rs' => MkRun [Remote c (Some (RError msg))] (Raised (ClientError msg)) rs'
  | r :: rs' =>
      match decode r with
      | inl e => MkRun [Remote c (Some r)] (Raised e) rs'
      | inr x =>
          if stop x then MkRun [Remote c (Some r)] (Done x) rs'
          else
            match sleep_check poll_interval with
            | Some e => MkRun [Remote c (Some r)] (Raised e) rs'
            | None => prepend [Remote c (Some r); Sleep poll_interval]
                        (poll_until c decode stop poll_interval rs')
            end
      end
  end.

(** ** The script *)

Definition SUSPEND_PROCESSES : list string :=
  ["ReplaceUnhealthy"; "AlarmNotification"; "ScheduledActions"; "AZRebalance"].

Definition POLL_INTERVAL : Z := 15.

(** [new_desired_capacity = pre_desired_capacity + 1] *)
Definition new_desired_capacity_of (pre_desired_capacity : Z) : Z :=
  pre_desired_capacity + 1.

(** [new_max_size = pre_max_size;
    if new_desired_capacity > pre_max_size: new_max_size = new_desired_capacity] *)
Definition new_max_size_of (new_desired_capacity pre_max_size : Z) : Z :=
  if bool_decide (new_desired_capacity > pre_max_size) then new_desired_capacity
  else pre_max_size.

(** [get_asg]: the first group of the description. *)
Definition get_asg (asg_name : string) : M AutoScalingGroup :=
  resp ← invoke (describe_auto_scaling_groups [asg_name]);
  groups ← lift (get_AutoScalingGroups resp);
  lift (item0 groups).

(** [wait_for_ecs_count]: blocks until the cluster lists at least
    [wanted_count] container instances. *)
Definition wait_for_ecs_count (wanted_count : Z) (ecs_cluster : string)
    (poll_interval : Z) : M unit :=
  (poll_until (list_container_instances ecs_cluster)
     get_containerInstanceArns
     (λ container_instances,
        let active_count := Z.of_nat (length container_instances) in
        bool_decide (active_count >= wanted_count))
     poll_interval : M (list string));;
  mret tt.

(** [cleanup]: resume the processes, then reset desired capacity and max size. *)
Definition cleanup (asg_name : string) (desired_capacity max_size : Z) : M unit :=
  invoke (resume_processes asg_name SUSPEND_PROCESSES);;
  invoke (update_auto_scaling_group asg_name max_size desired_capacity);;
  mret tt.

Section Script.

Variable args : Args.

Definition ASG_NAME : string := asg_name args.
Definition ECS_CLUSTER : string := ecs_cluster args.
Definition AWS_REGION : string := aws_region args.

(** The inner [while True] of [handler]: poll the description of the
    container instance until it runs no task; the last description read
    stays in [container_instance]. *)
Definition wait_drained (container_instance_arn : string) : M ContainerInstance :=
  poll_until (describe_container_instances ECS_CLUSTER [container_instance_arn])
    (λ resp, match get_containerInstances resp with
             | inr cis => item0 cis
             | inl e => inl e
             end)
    (λ container_instance, bool_decide (runningTasksCount container_instance = 0))
    POLL_INTERVAL.

(** The [for] loop of [handler], entered with the counter at [i], over the
    container instances still to visit.  The [break] ends the loop. *)
Fixpoint recycle (pre_desired_capacity new_desired_capacity : Z) (i : Z)
    (arns : list string) : M unit :=
  match arns with
  | [] => mret tt
  | container_instance_arn :: arns' =>
      let i := i + 1 in
      wait_for_ecs_count new_desired_capacity ECS_CLUSTER POLL_INTERVAL;;
      sleep POLL_INTERVAL;;
      invoke (update_container_instances_state ECS_CLUSTER
                [container_instance_arn] "DRAINING");;
      container_instance ← wait_drained container_instance_arn;
      sleep POLL_INTERVAL;;
      if bool_decide (i >= pre_desired_capacity) then mret tt
      else
        invoke (terminate_instance_in_auto_scaling_group
                  (ec2InstanceId container_instance) false);;
        sleep POLL_INTERVAL;;
        recycle pre_desired_capacity new_desired_capacity i arns'
  end.

(** [handler(event, context)] *)
Definition handler (event context : PyVal) : M unit :=
  invoke (suspend_processes ASG_NAME SUSPEND_PROCESSES);;
  asg ← get_asg ASG_NAME;
  resp ← invoke (list_container_instances ECS_CLUSTER);
  pre_container_instance_arns ← lift (get_containerInstanceArns resp);
  let pre_desired_capacity := DesiredCapacity asg in
  let new_desired_capacity := new_desired_capacity_of pre_desired_capacity in
  let pre_max_size := MaxSize asg in
  let new_max_size := new_max_size_of new_desired_capacity pre_max_size in
  invoke (update_auto_scaling_group ASG_NAME new_max_size new_desired_capacity);;
  recycle pre_desired_capacity new_desired_capacity 0 pre_container_instance_arns;;
  cleanup ASG_NAME pre_desired_capacity pre_max_size.

(** The last line of the script: [handler(False, False)]. *)
Definition main : M unit := handler (PyBool false) (PyBool false).

End Script.

(** ** Summaries of traces *)

(** A summary of a trace is computed event by event; [triple P m Q E] says
    that a run of [m] started in a summary satisfying [P] ends in one
    satisfying [Q] when it ends normally, and in one satisfying [E] when it
    is cut short by an exception or is still waiting. *)
Section Monitor.

Context {S : Type} (step : S → Event → S).

Definition after (s : S) (tr : Trace) : S := fold_left step tr s.

Definition triple {A} (P : S → Prop) (m : M A) (Q : A → S → Prop) (E : S → Prop) : Prop :=
  ∀ s rs, P s →
    match outcome (m rs) with
    | Done a => Q a (after s (trace (m rs)))
    | _ => E (after s (trace (m rs)))
    end.

End Monitor.

(** ** The drain wait *)

(** A poll of the drain wait that finds tasks still running. *)
Definition still_running (r : Reply) : bool :=
  match r with
  | RInstances (container_instance :: _) =>
      negb (bool_decide (runningTasksCount container_instance = 0))
  | _ => false
  end.

(** The events of polls that found tasks still running: the call with its
    reply, then one [sleep] of the poll interval. *)
Definition busy_polls (args : Args) (arn : string) (rs : list Reply) : Trace :=
  r ← rs;
  [Remote (describe_container_instances (ECS_CLUSTER args) [arn]) (Some r);
   Sleep POLL_INTERVAL].

(** ** What a trace says about the nodes *)

(** What the run read at its start: the group description (first group of
    the first [describe_auto_scaling_groups] reply) and the container
    instances of the cluster (the first [list_container_instances] reply). *)
Fixpoint read_settings (tr : Trace) : option AutoScalingGroup :=
  match tr with
  | [] => None
  | Remote (describe_auto_scaling_groups _) r :: _ =>
      match r with
      | Some (RGroups (asg :: _)) => Some asg
      | _ => None
      end
  | _ :: tr' => read_settings tr'
  end.

Fixpoint read_snapshot (tr : Trace) : option (list string) :=
  match tr with
  | [] => None
  | Remote (list_container_instances _) r :: _ =>
      match r with
      | Some (RArns arns) => Some arns
      | _ => None
      end
  | _ :: tr' => read_snapshot tr'
  end.

(** A call of [terminate_instance_in_auto_scaling_group], with what the run
    had done when it made it: the container instances it had set to
    draining so far, and the description of a container instance it had
    read last (the instances asked about, and the first one described). *)
Record Termination := {
  term_instance : string;
  term_decrement : bool;
  term_described : option (list string * ContainerInstance);
  term_after : list string;
}.

Record Nodes := {
  drained : list string;
  waited : list string;
  described : option (list string * ContainerInstance);
  terminated : list Termination;
}.

Definition no_nodes : Nodes :=
  {| drained := []; waited := []; described := None; terminated := [] |}.

Definition nodes_step (s : Nodes) (e : Event) : Nodes :=
  match e with
  | Remote (update_container_instances_state _ arns _) _ =>
      {| drained := drained s ++ arns; waited := waited s;
         described := described s; terminated := terminated s |}
  | Remote (describe_container_instances _ arns) (Some (RInstances (ci :: _))) =>
      {| drained := drained s;
         waited := if bool_decide (runningTasksCount ci = 0) then waited s ++ arns
                   else waited s;
         described := Some (arns, ci); terminated := terminated s |}
  | Remote (terminate_instance_in_auto_scaling_group iid dec) _ =>
      {| drained := drained s; waited := waited s; described := described s;
         terminated := terminated s ++
           [{| term_instance := iid; term_decrement := dec;
               term_described := described s; term_after := drained s |}] |}
  | _ => s
  end.

(** The container instances set to draining, in order, those a description
    showed without running task, in order, and the terminate calls, in
    order. *)
Definition drains (tr : Trace) : list string :=
  drained (after nodes_step no_nodes tr).

Definition drain_waits (tr : Trace) : list string :=
  waited (after nodes_step no_nodes tr).

Definition terminations (tr : Trace) : list Termination :=
  terminated (after nodes_step no_nodes tr).

(** The node a terminate call is for: the container instance whose
    description the run read last. *)
Definition term_node (t : Termination) : option string :=
  match term_described t with
  | Some ([arn], _) => Some arn
  | _ => None
  end.

(** A terminate call as the loop makes it for the node [arn], when [D] are
    the nodes set to draining so far ([arn] the last of them): the
    instance is the one of the description of [arn] read last, which shows
    no running task, and the desired capacity is not to be decremented. *)
Definition term_for (D : list string) (arn : string) (t : Termination) : Prop :=
  term_decrement t = false ∧ term_after t = D ∧
  ∃ ci, term_described t = Some ([arn], ci) ∧ runningTasksCount ci = 0 ∧
        term_instance t = ec2InstanceId ci.

(** The terminate calls [ts] are for the first nodes of [arns], one each and
    in order, after the nodes [D]. *)
Fixpoint terms_ok (D : list string) (ts : list Termination) (arns : list string) : Prop :=
  match ts, arns with
  | [], _ => True
  | t :: ts', arn :: arns' => term_for (D ++ [arn]) arn t ∧ terms_ok (D ++ [arn]) ts' arns'
  | _ :: _, [] => False
  end.

(** The nodes the loop sets to draining, and those it terminates, when it is
    entered with the counter at [i]. *)
Definition to_drain (pre_desired_capacity i : Z) (arns : list string) : list string :=
  take (Z.to_nat (Z.max (pre_desired_capacity - i) 1)) arns.

Definition to_terminate (pre_desired_capacity i : Z) (arns : list string) : list string :=
  take (Z.to_nat (pre_desired_capacity - 1 - i)) arns.

Definition nodes_post (complete : bool) (D W : list string) (T : list Termination)
    (pre_desired_capacity i : Z) (arns : list string) (s : Nodes) : Prop :=
  ∃ ds ws ts,
    drained s = D ++ ds ∧ waited s = W ++ ws ∧ terminated s = T ++ ts ∧
    ds `prefix_of` to_drain pre_desired_capacity i arns ∧
    ws `prefix_of` ds ∧
    terms_ok D ts (to_terminate pre_desired_capacity i arns) ∧
    (length ts ≤ length ws)%nat ∧
    (complete = true →
       ds = to_drain pre_desired_capacity i arns ∧ ws = ds ∧
       length ts = length (to_terminate pre_desired_capacity i arns)).

(** ** The parts of [handler] *)

Section Parts.

Variable args : Args.

(** The calls [handler] makes before the loop: suspend the processes, read
    the group, list the container instances, raise the capacity. *)
Definition setup : M (AutoScalingGroup * list string) :=
  invoke (suspend_processes (ASG_NAME args) SUSPEND_PROCESSES);;
  asg ← get_asg (ASG_NAME args);
  resp ← invoke (list_container_instances (ECS_CLUSTER args));
  pre_container_instance_arns ← lift (get_containerInstanceArns resp);
  invoke (update_auto_scaling_group (ASG_NAME args)
            (new_max_size_of (new_desired_capacity_of (DesiredCapacity asg)) (MaxSize asg))
            (new_desired_capacity_of (DesiredCapacity asg)));;
  mret (asg, pre_container_instance_arns).

(** The loop and the cleanup that follows it. *)
Definition loop_and_cleanup (asg : AutoScalingGroup) (arns : list string) : M unit :=
  recycle args (DesiredCapacity asg) (new_desired_capacity_of (DesiredCapacity asg)) 0 arns;;
  cleanup (ASG_NAME args) (DesiredCapacity asg) (MaxSize asg).

Definition suspend_event (r : option Reply) : Event :=
  Remote (suspend_processes (ASG_NAME args) SUSPEND_PROCESSES) r.

Definition read_event (r : option Reply) : Event :=
  Remote (describe_auto_scaling_groups [ASG_NAME args]) r.

Definition snapshot_event (r : option Reply) : Event :=
  Remote (list_container_instances (ECS_CLUSTER args)) r.

Definition scale_up_event (asg : AutoScalingGroup) (r : option Reply) : Event :=
  Remote (update_auto_scaling_group (ASG_NAME args)
            (new_max_size_of (new_desired_capacity_of (DesiredCapacity asg)) (MaxSize asg))
            (new_desired_capacity_of (DesiredCapacity asg))) r.

(** The events of a completed setup. *)
Definition setup_events (r0 : Reply) (asg : AutoScalingGroup)
    (gs : list AutoScalingGroup) (snap : list string) (r3 : Reply) : Trace :=
  [suspend_event (Some r0); read_event (Some (RGroups (asg :: gs)));
   snapshot_event (Some (RArns snap)); scale_up_event asg (Some r3)].

(** The events of a setup that was cut short: the last call got no reply,
    or an error, or a reply the script cannot read. *)
Definition setup_cut (tr : Trace) : Prop :=
  (∃ r, tr = [suspend_event r]) ∨
  (∃ r0 r, tr = [suspend_event (Some r0); read_event r]) ∨
  (∃ r0 asg gs r, tr = [suspend_event (Some r0); read_event (Some (RGroups (asg :: gs)));
                        snapshot_event r]) ∨
  (∃ r0 asg gs snap r, tr = [suspend_event (Some r0);
                             read_event (Some (RGroups (asg :: gs)));
                             snapshot_event (Some (RArns snap)); scale_up_event asg r]).

End Parts.

(** ** Example runs *)

Definition demo_args : Args :=
  {| asg_name := "asg"; ecs_cluster := "cluster"; aws_region := "eu-west-1" |}.

Definition idle (instance : string) : Reply :=
  RInstances [{| ec2InstanceId := instance; runningTasksCount := 0 |}].

Definition busy (instance : string) (tasks : Z) : Reply :=
  RInstances [{| ec2InstanceId := instance; runningTasksCount := tasks |}].

(** Desired 2, max 2, nodes a and b: a is drained and terminated, b is
    drained and left to the scale-in. *)
Definition two_nodes : list Reply :=
  [ ROther; RGroups [{| DesiredCapacity := 2; MaxSize := 2 |}]; RArns ["a"; "b"]; ROther;
    RArns ["a"; "b"; "n"]; ROther; idle "i-a"; ROther;
    RArns ["b"; "n"]; RArns ["b"; "n"; "m"]; ROther; busy "i-b" 1; idle "i-b";
    ROther; ROther ].

(** Desired 1, max 3, nodes a and b in the cluster: the loop stops at a. *)
Definition one_desired_two_nodes : list Reply :=
  [ ROther; RGroups [{| DesiredCapacity := 1; MaxSize := 3 |}]; RArns ["a"; "b"]; ROther;
    RArns ["a"; "b"]; ROther; idle "i-a";
    ROther; ROther ].

(** Desired 0, one node in the cluster. *)
Definition none_desired_one_node : list Reply :=
  [ ROther; RGroups [{| DesiredCapacity := 0; MaxSize := 1 |}]; RArns ["a"]; ROther;
    RArns ["a"]; ROther; busy "i-a" 3; idle "i-a";
    ROther; ROther ].

(** Desired 3, two nodes in the cluster: both are terminated. *)
Definition three_desired_two_nodes : list Reply :=
  [ ROther; RGroups [{| DesiredCapacity := 3; MaxSize := 5 |}]; RArns ["a"; "b"]; ROther;
    RArns ["a"; "b"; "n"; "m"]; ROther; idle "i-a"; ROther;
    RArns ["b"; "n"; "m"; "o"]; ROther; idle "i-b"; ROther;
    ROther; ROther ].

(** Desired 2, nodes a and b; while a is being replaced the cluster lists a
    single instance. *)
Definition two_nodes_one_lost : list Reply :=
  [ ROther; RGroups [{| DesiredCapacity := 2; MaxSize := 2 |}]; RArns ["a"; "b"]; ROther;
    RArns ["a"; "b"; "n"]; ROther; idle "i-a"; ROther;
    RArns ["b"]; RArns ["b"; "n"; "m"]; ROther; idle "i-b";
    ROther; ROther ].

(** Desired 2, nodes a and b; the description of a fails. *)
Definition two_nodes_describe_fails : list Reply :=
  [ ROther; RGroups [{| DesiredCapacity := 2; MaxSize := 2 |}]; RArns ["a"; "b"]; ROther;
    RArns ["a"; "b"; "n"]; ROther; RError "ThrottlingException" ].

(** ** The shape of a trace *)

(** The events the loop makes. *)
Definition loop_event (args : Args) (e : Event) : Prop :=
  match e with
  | Sleep secs => secs = POLL_INTERVAL
  | Remote (list_container_instances cl) _ => cl = ECS_CLUSTER args
  | Remote (update_container_instances_state cl arns st) _ =>
      cl = ECS_CLUSTER args ∧ st = "DRAINING" ∧ length arns = 1%nat
  | Remote (describe_container_instances cl arns) _ =>
      cl = ECS_CLUSTER args ∧ length arns = 1%nat
  | Remote (terminate_instance_in_auto_scaling_group _ dec) _ => dec = false
  | _ => False
  end.

(** Summary of a trace: every event so far satisfies [φ]. *)
Definition all_step (φ : Event → Prop) (s : Prop) (e : Event) : Prop := s ∧ φ e.

(** The call returned (boto3 raised no error). *)
Definition answered (r : Reply) : Prop := ∀ msg, r ≠ RError msg.

Definition resume_event (args : Args) (r : option Reply) : Event :=
  Remote (resume_processes (ASG_NAME args) SUSPEND_PROCESSES) r.

Definition restore_event (args : Args) (asg : AutoScalingGroup) (r : option Reply) : Event :=
  Remote (update_auto_scaling_group (ASG_NAME args) (MaxSize asg) (DesiredCapacity asg)) r.

(** The events of [cleanup], by the way the run ends. *)
Definition cleanup_events (args : Args) (asg : AutoScalingGroup) (o : Outcome unit)
    (cl : Trace) : Prop :=
  match o with
  | Done _ =>
      ∃ r0 r1, cl = [resume_event args (Some r0); restore_event args asg (Some r1)] ∧
               answered r0 ∧ answered r1
  | Raised e =>
      ∃ msg, e = ClientError msg ∧
        (cl = [resume_event args (Some (RError msg))] ∨
         ∃ r0, cl = [resume_event args (Some r0);
                     restore_event args asg (Some (RError msg))] ∧ answered r0)
  | Pending =>
      cl = [resume_event args None] ∨
      ∃ r0, cl = [resume_event args (Some r0); restore_event args asg None] ∧ answered r0
  end.

(** ** The group, as the calls of a run leave it *)

(** The settings of an auto scaling group that the run touches.  The group
    lives in the autoscaling service; the calls that return change it as
    their names say.  A terminate call lowers the desired capacity only when
    it is asked to. *)
Record Group := {
  group_desired : Z;
  group_max : Z;
  group_suspended : gset string;
}.

Definition returned (r : option Reply) : bool :=
  match r with
  | None | Some (RError _) => false
  | Some _ => true
  end.

Definition group_step (name : string) (g : Group) (e : Event) : Group :=
  match e with
  | Remote c r =>
      if returned r then
        match c with
        | suspend_processes n ps =>
            if bool_decide (n = name)
            then {| group_desired := group_desired g; group_max := group_max g;
                    group_suspended := group_suspended g ∪ list_to_set ps |}
            else g
        | resume_processes n ps =>
            if bool_decide (n = name)
            then {| group_desired := group_desired g; group_max := group_max g;
                    group_suspended := group_suspended g ∖ list_to_set ps |}
            else g
        | update_auto_scaling_group n max_size desired_capacity =>
            if bool_decide (n = name)
            then {| group_desired := desired_capacity; group_max := max_size;
                    group_suspended := group_suspended g |}
            else g
        | terminate_instance_in_auto_scaling_group _ true =>
            {| group_desired := group_desired g - 1; group_max := group_max g;
               group_suspended := group_suspended g |}
        | _ => g
        end
      else g
  | Sleep _ => g
  end.

(** The group after the calls of a trace. *)
Definition group_after (name : string) (g : Group) (tr : Trace) : Group :=
  after (group_step name) g tr.

Definition is_resume (e : Event) : bool :=
  match e with
  | Remote (resume_processes _ _) _ => true
  | _ => false
  end.

(** ** The container instances the run sees listed *)

(** The events that follow the first capacity update (the scale-up). *)
Fixpoint after_scale_up (tr : Trace) : Trace :=
  match tr with
  | [] => []
  | Remote (update_auto_scaling_group _ _ _) _ :: tr' => tr'
  | _ :: tr' => after_scale_up tr'
  end.

(** The number of container instances a listing of the cluster shows. *)
Definition listing (e : Event) : option Z :=
  match e with
  | Remote (list_container_instances _) (Some (RArns arns)) => Some (Z.of_nat (length arns))
  | _ => None
  end.

(** The counts of active container instances the run observes once it has
    raised the capacity: one for each poll of [wait_for_ecs_count]. *)
Definition capacity_polls (tr : Trace) : list Z := omap listing (after_scale_up tr).

(** The counts listed so far, and what they tell about the cluster when its
    container instances only go away by a terminate call of the run, one for
    each call: [count_floor] is the last count listed less the terminate
    calls made since, and [count_steady] says that no listing so far showed
    fewer instances than that. *)
Record Counts := {
  count_floor : Z;
  count_steady : bool;
  count_listed : list Z;
}.

Definition counts_step (s : Counts) (e : Event) : Counts :=
  match e with
  | Remote (list_container_instances _) (Some (RArns arns)) =>
      let n := Z.of_nat (length arns) in
      {| count_floor := n;
         count_steady := count_steady s && bool_decide (count_floor s ≤ n);
         count_listed := count_listed s ++ [n] |}
  | Remote (terminate_instance_in_auto_scaling_group _ _) _ =>
      {| count_floor := count_floor s - 1; count_steady := count_steady s;
         count_listed := count_listed s |}
  | _ => s
  end.

(** The cluster had [initial] container instances when the capacity was
    raised, and from then on lost instances only by the terminate calls of
    the run, one for each call. *)
Definition backend_steady (initial : Z) (tr : Trace) : bool :=
  count_steady
    (after counts_step {| count_floor := initial; count_steady := true; count_listed := [] |}
       (after_scale_up tr)).

(** What the loop keeps true of the counts, for an original desired
    capacity [d]; [spare] is 1 between a completed wait for the new instance
    and the terminate call that follows, and 0 otherwise. *)
Definition counts_inv (d spare : Z) (s : Counts) : Prop :=
  count_steady s = true →
  d + spare ≤ count_floor s ∧ Forall (λ n, d ≤ n) (count_listed s).

(** ** Where the operands of the calls come from *)

(** The event takes its group, cluster, processes and delay from the command
    line and the two constants of the script.  (The instance of a terminate
    call and the container instance of a drain or describe call come from
    the replies of the remote services.) *)
Definition configured (args : Args) (e : Event) : Prop :=
  match e with
  | Sleep secs => secs = POLL_INTERVAL
  | Remote (suspend_processes name processes) _
  | Remote (resume_processes name processes) _ =>
      name = ASG_NAME args ∧ processes = SUSPEND_PROCESSES
  | Remote (describe_auto_scaling_groups names) _ => names = [ASG_NAME args]
  | Remote (update_auto_scaling_group name _ _) _ => name = ASG_NAME args
  | Remote (terminate_instance_in_auto_scaling_group _ _) _ => True
  | Remote (list_container_instances cl) _
  | Remote (update_container_instances_state cl _ _) _
  | Remote (describe_container_instances cl _) _ => cl = ECS_CLUSTER args
  end.

(** ** The claims, as they are worded *)

(** Every node of the snapshot except the last one processed has exactly one
    terminate call. *)
Definition terminated_once_all_but_last (tr : Trace) : Prop :=
  ∀ snap arn,
    read_snapshot tr = Some snap → arn ∈ snap → last (drains tr) ≠ Some arn →
    length (filter (λ t, term_node t = Some arn) (terminations tr)) = 1%nat.

(** The cleanup was executed: the run called [resume_processes]. *)
Definition cleanup_ran (tr : Trace) : Prop :=
  ∃ name processes r, Remote (resume_processes name processes) r ∈ tr.


(** ** What comes before a terminate call *)

Definition is_listing (e : Event) : bool :=
  match e with
  | Remote (list_container_instances _) _ => true
  | _ => false
  end.

Definition is_terminate (e : Event) : bool :=
  match e with
  | Remote (terminate_instance_in_auto_scaling_group _ _) _ => true
  | _ => false
  end.

(** The last listing of [h] showed at least [wanted] container instances,
    and no terminate call was made since. *)
Definition listed_enough (wanted : Z) (h : Trace) : Prop :=
  ∃ pre cluster listed mid,
    h = pre ++ Remote (list_container_instances cluster) (Some (RArns listed)) :: mid ∧
    Z.of_nat (length listed) >= wanted ∧
    Forall (λ e, is_listing e = false ∧ is_terminate e = false) mid.

(** Every terminate call of [tr] comes after a listing of at least [wanted]
    container instances, with no other listing and no other terminate call
    between the two. *)
Definition terminate_gated (wanted : Z) (tr : Trace) : Prop :=
  ∀ pre e post, tr = pre ++ e :: post → is_terminate e = true → listed_enough wanted pre.

(** From the scale-up on, no listing shows fewer container instances than the
    original desired capacity. *)
Definition capacity_never_low (tr : Trace) : Prop :=
  ∀ asg, read_settings tr = Some asg →
    Forall (λ n, DesiredCapacity asg ≤ n) (capacity_polls tr).

(** The polls of the scenario of the specification: 5, then 2, then 0
    running tasks. *)
Definition polls_5_2_0 : list Reply := [busy "i-a" 5; busy "i-a" 2; idle "i-a"].

(** ** A run that completes, for every group and snapshot *)

(** Replies with which the loop, entered with the counter at [i], runs to
    its end: each wait finds enough container instances listed at once, and
    each node runs no task at the first poll. *)
Fixpoint prompt_replies (d i : Z) (arns : list string) : list Reply :=
  match arns with
  | [] => []
  | arn :: arns' =>
      RArns (replicate (Z.to_nat (d + 1)) "") :: ROther :: idle "" ::
      (if bool_decide (i + 1 >= d) then [] else ROther :: prompt_replies d (i + 1) arns')
  end.

Definition prompt_run (asg : AutoScalingGroup) (snap : list string) : list Reply :=
  ROther :: RGroups [asg] :: RArns snap :: ROther ::
  prompt_replies (DesiredCapacity asg) 0 snap ++ [ROther; ROther].

(** ** The capacity wait *)

(** A poll of the capacity wait that lists fewer container instances than
    wanted. *)
Definition short_listing (wanted_count : Z) (r : Reply) : bool :=
  match r with
  | RArns container_instances =>
      negb (bool_decide (Z.of_nat (length container_instances) >= wanted_count))
  | _ => false
  end.

(** The events of polls that listed too few container instances: the call
    with its reply, then one [sleep] of the poll interval. *)
Definition short_polls (ecs_cluster : string) (poll_interval : Z) (rs : list Reply) : Trace :=
  r ← rs;
  [Remote (list_container_instances ecs_cluster) (Some r); Sleep poll_interval].

(** What ends the capacity wait with an exception: an error of the call, or
    a response without the key. *)
Definition unreadable_listing (r : Reply) : option Exn :=
  match r with
  | RError msg => Some (ClientError msg)
  | RArns _ => None
  | _ => Some (KeyError "containerInstanceArns")
  end.

(** ** The gate before a drain *)

(** Every call that sets container instances to draining comes right after a
    sleep of the poll interval, which comes right after a listing that
    showed at least [wanted] container instances. *)
Definition drain_gated (wanted : Z) (tr : Trace) : Prop :=
  ∀ i cl arns st r,
    tr !! i = Some (Remote (update_container_instances_state cl arns st) r) →
    ∃ j cl' listed,
      i = S (S j) ∧
      tr !! j = Some (Remote (list_container_instances cl') (Some (RArns listed))) ∧
      Z.of_nat (length listed) >= wanted ∧
      tr !! S j = Some (Sleep POLL_INTERVAL).

Definition is_drain (e : Event) : bool :=
  match e with
  | Remote (update_container_instances_state _ _ _) _ => true
  | _ => false
  end.

(** ** Failures of the drain wait *)

(** What ends the drain wait with an exception: an error of the call, a
    response without the list of container instances, or an empty list. *)
Definition unreadable_description (r : Reply) : option Exn :=
  match r with
  | RError msg => Some (ClientError msg)
  | RInstances [] => Some IndexError
  | RInstances (_ :: _) => None
  | _ => Some (KeyError "containerInstances")
  end.

(** ** Runs in which every wait ends *)

(** What the remote services reply while the loop visits one node: listings
    that show too few container instances, then one that shows enough;
    descriptions of the node that show running tasks, then one that shows
    none. *)
Record Visit := {
  visit_short : list Reply;
  visit_listed : list string;
  visit_busy : list Reply;
  visit_idle : ContainerInstance;
}.

Definition visit_ok (wanted : Z) (v : Visit) : bool :=
  forallb (short_listing wanted) (visit_short v) &&
  bool_decide (Z.of_nat (length (visit_listed v)) >= wanted) &&
  forallb still_running (visit_busy v) &&
  bool_decide (runningTasksCount (visit_idle v) = 0).

(** The replies of a visit, up to the description that shows the node
    drained; the drain call returns. *)
Definition visit_replies (v : Visit) : list Reply :=
  visit_short v ++ RArns (visit_listed v) :: ROther ::
  visit_busy v ++ [RInstances [visit_idle v]].

(** The replies to the loop entered with the counter at [i]: the visits one
    after the other, each followed by the return of the terminate call,
    until the loop stops. *)
Fixpoint patient_replies (d i : Z) (vs : list Visit) : list Reply :=
  match vs with
  | [] => []
  | v :: vs' =>
      visit_replies v ++
      (if bool_decide (i + 1 >= d) then [] else ROther :: patient_replies d (i + 1) vs')
  end.

(** The visits of the example run [two_nodes]: a is listed with the spare
    instance at once and is idle; b needs a second listing and a second
    description. *)
Definition two_visits : list Visit :=
  [ {| visit_short := []; visit_listed := ["a"; "b"; "n"]; visit_busy := [];
       visit_idle := {| ec2InstanceId := "i-a"; runningTasksCount := 0 |} |};
    {| visit_short := [RArns ["b"; "n"]]; visit_listed := ["b"; "n"; "m"];
       visit_busy := [busy "i-b" 1];
       visit_idle := {| ec2InstanceId := "i-b"; runningTasksCount := 0 |} |} ].

(** ** The pace of a run *)

(** The calls after which the loop sleeps: the listings of the capacity
    wait, the descriptions of the drain wait and the terminate calls. *)
Definition paced (e : Event) : bool :=
  match e with
  | Remote (list_container_instances _) _
  | Remote (describe_container_instances _ _) _
  | Remote (terminate_instance_in_auto_scaling_group _ _) _ => true
  | _ => false
  end.

(** The seconds a run has slept. *)
Definition seconds_slept (tr : Trace) : Z :=
  foldr (λ e n, match e with Sleep secs => secs + n | _ => n end) 0 tr.

(** The number of paced calls the run has made since it raised the
    capacity. *)
Definition paced_calls (tr : Trace) : Z :=
  Z.of_nat (length (filter (λ e, paced e = true) (after_scale_up tr))).

(** The seconds slept so far, and the seconds of sleep the calls made so far
    ask for. *)
Record Pace := {
  pace_slept : Z;
  pace_due : Z;
}.

Definition pace_step (s : Pace) (e : Event) : Pace :=
  match e with
  | Sleep secs => {| pace_slept := pace_slept s + secs; pace_due := pace_due s |}
  | _ => if paced e
         then {| pace_slept := pace_slept s; pace_due := pace_due s + POLL_INTERVAL |}
         else s
  end.


(** ** Where the run sleeps *)

Definition is_sleep (e : Event) : bool :=
  match e with
  | Sleep _ => true
  | _ => false
  end.

(** Reading a trace from its start: [Settled] when every paced call so far
    was directly followed by one sleep of the poll interval and nothing else
    slept; [Owing] when this holds but for the last event, a paced call whose
    sleep has not come; [Broken] otherwise (a sleep that does not directly
    follow a paced call, a sleep of another length, or a paced call followed
    by something else than a sleep). *)
Inductive Rhythm := Settled | Owing | Broken.

Definition rhythm_step (s : Rhythm) (e : Event) : Rhythm :=
  match s, e with
  | Settled, Sleep _ => Broken
  | Settled, _ => if paced e then Owing else Settled
  | Owing, Sleep secs => if bool_decide (secs = POLL_INTERVAL) then Settled else Broken
  | Owing, _ => Broken
  | Broken, _ => Broken
  end.

(** The rhythm of the events that follow the scale-up. *)
Definition rhythm (tr : Trace) : Rhythm := after rhythm_step Settled (after_scale_up tr).
(** ** Reasoning about runs *)

Lemma run_eta {A} (r : Run A) : MkRun (trace r) (outcome r) (rest r) = r.
Proof. by destruct r. Qed.

Lemma run_done {A} (r : Run A) a rs :
  outcome r = Done a ∧ rest r = rs → r = MkRun (trace r) (Done a) rs.
Proof. destruct r. simpl. by intros [-> ->]. Qed.

Lemma bind_trace {A B} (m : M A) (k : A → M B) rs :
  trace ((m ≫= k) rs) =
  trace (m rs) ++ match outcome (m rs) with
                  | Done a => trace (k a (rest (m rs)))
                  | _ => []
                  end.
Proof.
  unfold mbind, M_bind, bind. destruct (outcome (m rs)); simpl;
    by rewrite ?app_nil_r.
Qed.

Lemma bind_outcome {A B} (m : M A) (k : A → M B) rs :
  outcome ((m ≫= k) rs) =
  match outcome (m rs) with
  | Done a => outcome (k a (rest (m rs)))
  | Raised e => Raised e
  | Pending => Pending
  end.
Proof. unfold mbind, M_bind, bind. by destruct (outcome (m rs)). Qed.

Lemma bind_rest {A B} (m : M A) (k : A → M B) rs :
  rest ((m ≫= k) rs) =
  match outcome (m rs) with
  | Done a => rest (k a (rest (m rs)))
  | _ => rest (m rs)
  end.
Proof. unfold mbind, M_bind, bind. by destruct (outcome (m rs)). Qed.

Lemma bind_done {A B} (m : M A) (k : A → M B) rs a :
  outcome (m rs) = Done a →
  (m ≫= k) rs = prepend (trace (m rs)) (k a (rest (m rs))).
Proof. intros H. unfold mbind, M_bind, bind. by rewrite H. Qed.

Lemma bind_assoc {A B C} (m : M A) (k : A → M B) (h : B → M C) rs :
  ((m ≫= k) ≫= h) rs = (m ≫= (λ a, k a ≫= h)) rs.
Proof.
  unfold mbind, M_bind, bind, prepend. destruct (outcome (m rs)); simpl; [|done..].
  destruct (outcome (k a (rest (m rs)))); simpl; by rewrite ?app_assoc.
Qed.

Section MonitorRules.

Context {S : Type} (step : S → Event → S).

Local Abbreviation after := (after step).
Local Abbreviation triple := (triple step).

Lemma after_app s t1 t2 : after s (t1 ++ t2) = after (after s t1) t2.
Proof. apply fold_left_app. Qed.

Lemma triple_ret {A} (a : A) (P : S → Prop) Q E :
  (∀ s, P s → Q a s) → triple P (mret a) Q E.
Proof. intros H s rs HP. simpl. auto. Qed.

Lemma triple_lift {A} (x : Exn + A) (P : S → Prop) Q E :
  (∀ s, P s → match x with inr a => Q a s | inl _ => E s end) →
  triple P (lift x) Q E.
Proof. intros H s rs HP. specialize (H s HP). by destruct x. Qed.

Lemma triple_bind {A B} (m : M A) (k : A → M B) P Q R E :
  triple P m Q E → (∀ a, triple (Q a) (k a) R E) → triple P (m ≫= k) R E.
Proof.
  intros Hm Hk s rs HP. specialize (Hm s rs HP).
  rewrite bind_outcome, bind_trace.
  destruct (outcome (m rs)) as [a| |]; rewrite ?app_nil_r; try done.
  rewrite after_app. by apply Hk.
Qed.

Lemma triple_conseq {A} (m : M A) (P P' : S → Prop) (Q Q' : A → S → Prop)
    (E E' : S → Prop) :
  triple P' m Q' E' → (∀ s, P s → P' s) → (∀ a s, Q' a s → Q a s) →
  (∀ s, E' s → E s) → triple P m Q E.
Proof.
  intros H HP HQ HE s rs Hs. specialize (H s rs (HP s Hs)).
  destruct (outcome (m rs)); auto.
Qed.

Lemma triple_assume {A} (m : M A) (φ : Prop) (P : S → Prop) Q E :
  (φ → triple P m Q E) → triple (λ s, P s ∧ φ) m Q E.
Proof. intros H s rs [HP Hφ]. by apply H. Qed.

Lemma triple_sleep secs (P : S → Prop) Q E :
  sleep_check secs = None →
  (∀ s, P s → Q tt (step s (Sleep secs))) → triple P (sleep secs) Q E.
Proof. intros Hc H s rs HP. unfold sleep. rewrite Hc. simpl. auto. Qed.

Lemma triple_invoke c (P : S → Prop) Q E :
  (∀ s r, P s → E (step s (Remote c r))) →
  (∀ s r, P s → Q r (step s (Remote c (Some r)))) →
  triple P (invoke c) Q E.
Proof.
  intros HE HQ s rs HP. destruct rs as [|r rs]; simpl; [by apply HE|].
  destruct r; simpl; auto.
Qed.

(** The polling loop, with [J] holding each time the loop is about to poll.
    The loop is cut short when a call gets no reply, an error, or a reply
    that cannot be read. *)
Lemma triple_poll_until {A} c (decode : Reply → Exn + A) stop poll_interval
    (J : S → Prop) Q E :
  sleep_check poll_interval = None →
  (∀ s, J s → E (step s (Remote c None))) →
  (∀ s msg, J s → E (step s (Remote c (Some (RError msg))))) →
  (∀ s r e, J s → decode r = inl e → E (step s (Remote c (Some r)))) →
  (∀ s r x, J s → decode r = inr x → stop x = true →
            Q x (step s (Remote c (Some r)))) →
  (∀ s r x, J s → decode r = inr x → stop x = false →
            J (step (step s (Remote c (Some r))) (Sleep poll_interval))) →
  triple J (poll_until c decode stop poll_interval) Q E.
Proof.
  intros Hc HN HR HE HQ HJ s rs. revert s.
  induction rs as [|r rs IH]; intros s Hs; simpl; [by apply HN|].
  destruct r; simpl;
    try (destruct (decode _) as [e|x] eqn:Hd; simpl; [by eapply HE|];
         destruct (stop x) eqn:Hstop; simpl; [by eapply HQ|];
         rewrite Hc; simpl; by apply IH, (HJ _ _ _ Hs Hd Hstop)).
  by apply HR.
Qed.

End MonitorRules.

(** The rule of the polling loop, for [wait_for_ecs_count]. *)
Lemma triple_wait_for_ecs_count {S} (step : S → Event → S) wanted cluster poll
    (J Q E : S → Prop) :
  let c := list_container_instances cluster in
  sleep_check poll = None →
  (∀ s, J s → E (step s (Remote c None))) →
  (∀ s r, J s → (∀ arns, r ≠ RArns arns) → E (step s (Remote c (Some r)))) →
  (∀ s arns, J s → Z.of_nat (length arns) >= wanted →
             Q (step s (Remote c (Some (RArns arns))))) →
  (∀ s arns, J s → ¬ Z.of_nat (length arns) >= wanted →
             J (step (step s (Remote c (Some (RArns arns)))) (Sleep poll))) →
  triple step J (wait_for_ecs_count wanted cluster poll) (λ _, Q) E.
Proof.
  intros c Hc HN HE HQ HJ. unfold wait_for_ecs_count.
  eapply triple_bind with (Q := λ _, Q); [|intros ?; by apply triple_ret].
  apply triple_poll_until; try done.
  - intros s msg Hs. by apply HE.
  - intros s r e Hs Hdec. apply HE; [done|]. by intros arns ->.
  - intros s r x Hs Hdec Hstop. destruct r; simplify_eq/=.
    apply HQ; [done|]. by apply bool_decide_eq_true_1 in Hstop.
  - intros s r x Hs Hdec Hstop. destruct r; simplify_eq/=.
    apply HJ; [done|]. by apply bool_decide_eq_false_1 in Hstop.
Qed.

(** ** The drain wait *)

Lemma wait_drained_busy args arn r rs :
  still_running r = true →
  wait_drained args arn (r :: rs) =
  prepend (busy_polls args arn [r]) (wait_drained args arn rs).
Proof.
  destruct r as [|gs|arns|[|ci more]|msg]; try done. simpl.
  intros Hrun. unfold wait_drained. simpl.
  by destruct (bool_decide (runningTasksCount ci = 0)).
Qed.

Lemma wait_drained_idle args arn ci more rs :
  runningTasksCount ci = 0 →
  wait_drained args arn (RInstances (ci :: more) :: rs) =
  MkRun [Remote (describe_container_instances (ECS_CLUSTER args) [arn])
           (Some (RInstances (ci :: more)))] (Done ci) rs.
Proof. intros Hz. unfold wait_drained. simpl. by rewrite bool_decide_eq_true_2. Qed.

Lemma wait_drained_done args arn rs ci :
  outcome (wait_drained args arn rs) = Done ci →
  ∃ pre more,
    rs = pre ++ RInstances (ci :: more) :: rest (wait_drained args arn rs) ∧
    forallb still_running pre = true ∧
    runningTasksCount ci = 0 ∧
    trace (wait_drained args arn rs) =
      busy_polls args arn pre ++
      [Remote (describe_container_instances (ECS_CLUSTER args) [arn])
         (Some (RInstances (ci :: more)))].
Proof.
  induction rs as [|r rs IH]; [done|].
  destruct (still_running r) eqn:Hr.
  - rewrite wait_drained_busy by done. simpl. intros Hd.
    destruct (IH Hd) as (pre & more & Hrs & Hpre & Hz & Htr).
    exists (r :: pre), more. simpl. rewrite Hr, Htr. repeat split; try done.
    by rewrite <- Hrs.
  - destruct r as [|gs|arns|[|ci' more]|msg]; try done.
    unfold wait_drained. simpl. simpl in Hr.
    destruct (bool_decide (runningTasksCount ci' = 0)) eqn:Hz; [|done].
    simpl. intros [= ->]. exists [], more. apply bool_decide_eq_true_1 in Hz.
    by repeat split.
Qed.

Lemma wait_drained_first_idle args arn pre ci more rs :
  forallb still_running pre = true →
  runningTasksCount ci = 0 →
  wait_drained args arn (pre ++ RInstances (ci :: more) :: rs) =
  MkRun (busy_polls args arn pre ++
         [Remote (describe_container_instances (ECS_CLUSTER args) [arn])
            (Some (RInstances (ci :: more)))]) (Done ci) rs.
Proof.
  intros Hpre Hz. induction pre as [|r pre IH]; simpl.
  - by apply wait_drained_idle.
  - simpl in Hpre. apply andb_prop in Hpre as [Hr Hpre].
    rewrite wait_drained_busy, IH by done. reflexivity.
Qed.

Lemma wait_drained_all_busy args arn rs :
  forallb still_running rs = true →
  wait_drained args arn rs =
  MkRun (busy_polls args arn rs ++
         [Remote (describe_container_instances (ECS_CLUSTER args) [arn]) None])
    Pending [].
Proof.
  induction rs as [|r rs IH]; simpl; [done|].
  intros [Hr Hrs]%andb_prop. rewrite wait_drained_busy, IH by done. reflexivity.
Qed.

(** ** The loop and the nodes *)

Section Nodes.

Variable args : Args.
Variables pre_desired_capacity new_desired_capacity : Z.

Local Abbreviation triple := (triple nodes_step).

Lemma wait_for_ecs_count_nodes wanted cluster poll (P E : Nodes → Prop) :
  sleep_check poll = None →
  (∀ s, P s → E s) →
  triple P (wait_for_ecs_count wanted cluster poll) (λ _, P) E.
Proof.
  intros Hc HE. apply triple_wait_for_ecs_count; simpl; auto.
Qed.

Lemma wait_drained_nodes arn D W T :
  triple (λ s, drained s = D ∧ waited s = W ∧ terminated s = T)
    (wait_drained args arn)
    (λ ci s, drained s = D ∧ waited s = W ++ [arn] ∧ terminated s = T ∧
             described s = Some ([arn], ci) ∧ runningTasksCount ci = 0)
    (λ s, drained s = D ∧ waited s = W ∧ terminated s = T).
Proof.
  apply triple_poll_until; [done|..].
  - by intros s (HD & HW & HT).
  - by intros s msg (HD & HW & HT).
  - intros s r e (HD & HW & HT) Hdec.
    by destruct r as [| |? |[|??]|]; simplify_eq/=.
  - intros s r ci (HD & HW & HT) Hdec Hstop.
    destruct r as [| |? |[|ci' more]|]; simplify_eq/=.
    rewrite Hstop. by apply bool_decide_eq_true_1 in Hstop.
  - intros s r ci (HD & HW & HT) Hdec Hstop.
    destruct r as [| |? |[|ci' more]|]; simplify_eq/=. by rewrite Hstop.
Qed.

Lemma nodes_post_weaken D W T i arns s :
  nodes_post true D W T pre_desired_capacity i arns s →
  nodes_post false D W T pre_desired_capacity i arns s.
Proof.
  intros (ds & ws & ts & ? & ? & ? & ? & ? & ? & ? & _). by exists ds, ws, ts.
Qed.

(** Nothing done yet in this turn of the loop. *)
Lemma nodes_post_start D W T i arns s :
  drained s = D → waited s = W → terminated s = T →
  nodes_post false D W T pre_desired_capacity i arns s.
Proof.
  intros HD HW HT. exists [], [], []. rewrite !app_nil_r.
  split_and!; try done. apply prefix_nil.
Qed.

Lemma to_drain_cons i arn arns :
  ∃ n, to_drain pre_desired_capacity i (arn :: arns) = arn :: take n arns.
Proof.
  unfold to_drain.
  replace (Z.to_nat (Z.max (pre_desired_capacity - i) 1))
    with (S (Z.to_nat (Z.max (pre_desired_capacity - i) 1 - 1))) by lia.
  by eexists.
Qed.

(** The node is set to draining, and not known to be drained. *)
Lemma nodes_post_draining D W T i arn arns s :
  drained s = D ++ [arn] → waited s = W → terminated s = T →
  nodes_post false D W T pre_desired_capacity i (arn :: arns) s.
Proof.
  intros HD HW HT. exists [arn], [], []. rewrite !app_nil_r.
  split_and!; try done; [|apply prefix_nil].
  destruct (to_drain_cons i arn arns) as [n ->]. apply prefix_cons, prefix_nil.
Qed.

(** The loop stops at this node. *)
Lemma nodes_post_break D W T i arn arns s :
  i + 1 >= pre_desired_capacity →
  drained s = D ++ [arn] → waited s = W ++ [arn] → terminated s = T →
  nodes_post true D W T pre_desired_capacity i (arn :: arns) s.
Proof.
  intros Hi HD HW HT. exists [arn], [arn], []. rewrite !app_nil_r.
  unfold to_drain, to_terminate.
  replace (Z.to_nat (Z.max (pre_desired_capacity - i) 1)) with 1%nat by lia.
  replace (Z.to_nat (pre_desired_capacity - 1 - i)) with 0%nat by lia.
  simpl. rewrite take_0. split_and!; try done. lia.
Qed.

(** The node is terminated and the loop goes on with the next ones. *)
Lemma nodes_post_next complete D W T i arn arns t s :
  ¬ i + 1 >= pre_desired_capacity →
  term_for (D ++ [arn]) arn t →
  nodes_post complete (D ++ [arn]) (W ++ [arn]) (T ++ [t])
    pre_desired_capacity (i + 1) arns s →
  nodes_post complete D W T pre_desired_capacity i (arn :: arns) s.
Proof.
  intros Hi Ht (ds & ws & ts & HD & HW & HT & Hpre & Hws & Hok & Hlen & Hc).
  exists (arn :: ds), (arn :: ws), (t :: ts). rewrite <- !app_assoc in *. simpl in *.
  unfold to_drain, to_terminate in *.
  replace (Z.to_nat (Z.max (pre_desired_capacity - i) 1))
    with (S (Z.to_nat (Z.max (pre_desired_capacity - (i + 1)) 1))) by lia.
  replace (Z.to_nat (pre_desired_capacity - 1 - i))
    with (S (Z.to_nat (pre_desired_capacity - 1 - (i + 1)))) by lia.
  simpl. split_and!; try done.
  - by apply prefix_cons.
  - by apply prefix_cons.
  - lia.
  - intros Hcomplete. destruct (Hc Hcomplete) as (-> & -> & ->). done.
Qed.

Lemma recycle_nodes arns : ∀ i D W T,
  triple (λ s, drained s = D ∧ waited s = W ∧ terminated s = T)
    (recycle args pre_desired_capacity new_desired_capacity i arns)
    (λ _, nodes_post true D W T pre_desired_capacity i arns)
    (nodes_post false D W T pre_desired_capacity i arns).
Proof.
  induction arns as [|arn arns IH]; intros i D W T.
  { apply triple_ret. intros s (HD & HW & HT). exists [], [], []. rewrite !app_nil_r.
    unfold to_drain, to_terminate. rewrite !take_nil. by split_and!. }
  simpl.
  set (P0 := λ s : Nodes, drained s = D ∧ waited s = W ∧ terminated s = T).
  set (P1 := λ s : Nodes, drained s = D ++ [arn] ∧ waited s = W ∧ terminated s = T).
  set (P1' := λ s : Nodes,
         drained s = D ++ [arn] ∧ waited s = W ++ [arn] ∧ terminated s = T).
  eapply triple_bind with (Q := λ _, P0).
  { apply wait_for_ecs_count_nodes; [done|].
    intros s (? & ? & ?). by apply nodes_post_start. }
  intros _. eapply triple_bind with (Q := λ _, P0); [by apply triple_sleep|].
  intros _. eapply triple_bind with (Q := λ _, P1).
  { apply triple_invoke.
    - intros s r (HD & HW & HT). apply nodes_post_draining; simpl; congruence.
    - intros s r (HD & HW & HT). split_and!; simpl; congruence. }
  intros _. eapply triple_bind.
  { eapply triple_conseq; [apply wait_drained_nodes|done|done|].
    intros s (? & ? & ?). by apply nodes_post_draining. }
  intros ci.
  eapply triple_bind with
    (Q := λ _ s, (P1' s ∧ described s = Some ([arn], ci)) ∧ runningTasksCount ci = 0).
  { apply triple_sleep; [done|]. intros s (? & ? & ? & ? & ?). by repeat split. }
  intros _. apply triple_assume. intros Hz. case_bool_decide as Hi.
  { apply triple_ret. intros s [(? & ? & ?) _]. by apply nodes_post_break. }
  set (t := {| term_instance := ec2InstanceId ci; term_decrement := false;
               term_described := Some ([arn], ci); term_after := D ++ [arn] |}).
  assert (term_for (D ++ [arn]) arn t) as Ht by (repeat split; by exists ci).
  set (P2 := λ s : Nodes, drained s = D ++ [arn] ∧ waited s = W ++ [arn] ∧
                          terminated s = T ++ [t]).
  assert (∀ s, P2 s → nodes_post false D W T pre_desired_capacity i (arn :: arns) s)
    as HP2.
  { intros s (? & ? & ?). eapply nodes_post_next; [done..|]. by apply nodes_post_start. }
  eapply triple_bind with (Q := λ _, P2).
  { apply triple_invoke.
    - intros s r [(HD & HW & HT) Hdesc]. apply HP2. split_and!; simpl; [done..|].
      by rewrite HT, Hdesc, HD.
    - intros s r [(HD & HW & HT) Hdesc]. split_and!; simpl; [done..|].
      by rewrite HT, Hdesc, HD. }
  intros _. eapply triple_bind with (Q := λ _, P2); [by apply triple_sleep|].
  intros _.
  eapply triple_conseq;
    [apply (IH (i + 1) (D ++ [arn]) (W ++ [arn]) (T ++ [t]))|done|..].
  - intros ? s Hs. by eapply nodes_post_next.
  - intros s Hs. by eapply nodes_post_next.
Qed.

End Nodes.

(** ** [handler], part by part *)

Lemma bind_ext {A B} (m : M A) (k k' : A → M B) rs :
  (∀ a rs', k a rs' = k' a rs') → (m ≫= k) rs = (m ≫= k') rs.
Proof.
  intros H. unfold mbind, M_bind, bind. destruct (outcome (m rs)); [|done..].
  by rewrite H.
Qed.

Lemma ret_bind {A B} (a : A) (k : A → M B) rs : (mret a ≫= k) rs = k a rs.
Proof.
  unfold mbind, M_bind, bind, mret, M_ret, ret, prepend. simpl. apply run_eta.
Qed.

Lemma handler_split args event context rs :
  handler args event context rs =
  (setup args ≫= λ p, loop_and_cleanup args p.1 p.2) rs.
Proof.
  unfold handler, setup, loop_and_cleanup. symmetry.
  rewrite bind_assoc. apply bind_ext. intros _ rs1.
  rewrite bind_assoc. apply bind_ext. intros asg rs2.
  rewrite bind_assoc. apply bind_ext. intros resp rs3.
  rewrite bind_assoc. apply bind_ext. intros arns rs4.
  rewrite bind_assoc. apply bind_ext. intros _ rs5.
  by rewrite ret_bind.
Qed.

Lemma after_snoc (s tr : Trace) : after (λ s e, s ++ [e]) s tr = s ++ tr.
Proof.
  unfold after. revert s.
  induction tr as [|e tr IH]; intros s; simpl; [by rewrite app_nil_r|].
  by rewrite IH, <- app_assoc.
Qed.

Lemma setup_triple args :
  triple (λ s e, s ++ [e]) (λ s, s = []) (setup args)
    (λ p tr, ∃ r0 gs r3, tr = setup_events args r0 p.1 gs p.2 r3)
    (setup_cut args).
Proof.
  unfold setup, get_asg.
  eapply triple_bind with (Q := λ _ tr, ∃ r0, tr = [suspend_event args (Some r0)]).
  { apply triple_invoke; intros s r ->; [left|]; by eexists. }
  intros _.
  eapply triple_bind with
    (Q := λ asg tr, ∃ r0 gs, tr = [suspend_event args (Some r0);
                                   read_event args (Some (RGroups (asg :: gs)))]).
  { eapply triple_bind with
      (Q := λ resp tr, ∃ r0, tr = [suspend_event args (Some r0);
                                    read_event args (Some resp)]).
    { apply triple_invoke; intros s r [r0 ->]; simpl; [|by eexists].
      right; left. by exists r0, r. }
    intros resp.
    eapply triple_bind with
      (Q := λ groups tr, ∃ r0, tr = [suspend_event args (Some r0);
                                      read_event args (Some (RGroups groups))]).
    { apply triple_lift. intros s [r0 ->].
      destruct resp; simpl; try (right; left; by eexists _, _). by exists r0. }
    intros groups. apply triple_lift. intros s [r0 ->].
    destruct groups as [|asg gs]; simpl; [right; left; by eexists _, _|].
    by exists r0, gs. }
  intros asg.
  eapply triple_bind with
    (Q := λ resp tr, ∃ r0 gs, tr = [suspend_event args (Some r0);
                                    read_event args (Some (RGroups (asg :: gs)));
                                    snapshot_event args (Some resp)]).
  { apply triple_invoke; intros s r (r0 & gs & ->); simpl; [|by eexists _, _].
    right; right; left. by exists r0, asg, gs, r. }
  intros resp.
  eapply triple_bind with
    (Q := λ snap tr, ∃ r0 gs, tr = [suspend_event args (Some r0);
                                    read_event args (Some (RGroups (asg :: gs)));
                                    snapshot_event args (Some (RArns snap))]).
  { apply triple_lift. intros s (r0 & gs & ->).
    destruct resp; simpl; try (right; right; left; by eexists _, _, _, _).
    by exists r0, gs. }
  intros snap.
  eapply triple_bind with
    (Q := λ _ tr, ∃ r0 gs r3, tr = setup_events args r0 asg gs snap r3).
  { apply triple_invoke; intros s r (r0 & gs & ->); simpl; [|by eexists _, _, _].
    right; right; right. by exists r0, asg, gs, snap, r. }
  intros _. by apply triple_ret.
Qed.

(** Every run of [handler] either is cut short during the setup, or consists
    of the events of a completed setup followed by a run of the loop and
    the cleanup. *)
Lemma handler_cases args event context rs :
  (setup_cut args (trace (handler args event context rs)) ∧
   ∀ u, outcome (handler args event context rs) ≠ Done u) ∨
  (∃ r0 asg gs snap r3 rs',
     handler args event context rs =
     prepend (setup_events args r0 asg gs snap r3) (loop_and_cleanup args asg snap rs')).
Proof.
  pose proof (setup_triple args [] rs eq_refl) as H.
  rewrite after_snoc in H. simpl in H.
  rewrite handler_split.
  destruct (outcome (setup args rs)) as [[asg snap]| |] eqn:Hout.
  - right. destruct H as (r0 & gs & r3 & Htr).
    rewrite (bind_done _ _ _ _ Hout), Htr. by eexists r0, asg, gs, snap, r3, _.
  - left. by rewrite bind_trace, bind_outcome, Hout, app_nil_r.
  - left. by rewrite bind_trace, bind_outcome, Hout, app_nil_r.
Qed.

(** ** The nodes of a whole run *)

Lemma setup_cut_nodes args tr s : setup_cut args tr → after nodes_step s tr = s.
Proof.
  intros [(r & ->)|[(r0 & r & ->)|[(r0 & asg & gs & r & ->)|(r0 & asg & gs & snap & r & ->)]]];
    reflexivity.
Qed.

Lemma setup_events_read args r0 asg gs snap r3 tr :
  read_settings (setup_events args r0 asg gs snap r3 ++ tr) = Some asg ∧
  read_snapshot (setup_events args r0 asg gs snap r3 ++ tr) = Some snap.
Proof. done. Qed.

Lemma cleanup_nodes asg_name desired_capacity max_size (P E : Nodes → Prop) :
  (∀ s, P s → E s) →
  triple nodes_step P (cleanup asg_name desired_capacity max_size) (λ _, P) E.
Proof.
  intros HE. unfold cleanup.
  eapply triple_bind with (Q := λ _, P); [apply triple_invoke; simpl; auto|].
  intros _. eapply triple_bind with (Q := λ _, P); [apply triple_invoke; simpl; auto|].
  intros _. by apply triple_ret.
Qed.

Lemma loop_and_cleanup_nodes args asg snap :
  triple nodes_step (λ s, drained s = [] ∧ waited s = [] ∧ terminated s = [])
    (loop_and_cleanup args asg snap)
    (λ _, nodes_post true [] [] [] (DesiredCapacity asg) 0 snap)
    (nodes_post false [] [] [] (DesiredCapacity asg) 0 snap).
Proof.
  unfold loop_and_cleanup.
  eapply triple_bind; [apply recycle_nodes|].
  intros ?. apply cleanup_nodes. apply nodes_post_weaken.
Qed.

(** In every run, the nodes set to draining and the terminate calls are as
    the loop makes them for the group and the nodes read at the start. *)
Lemma handler_nodes args event context rs asg snap :
  let run := handler args event context rs in
  read_settings (trace run) = Some asg →
  read_snapshot (trace run) = Some snap →
  nodes_post (if outcome run is Done _ then true else false) [] [] []
    (DesiredCapacity asg) 0 snap (after nodes_step no_nodes (trace run)).
Proof.
  intros run Hasg Hsnap. subst run.
  destruct (handler_cases args event context rs)
    as [[Hcut Hout]|(r0 & asg' & gs & snap' & r3 & rs' & Heq)].
  - rewrite (setup_cut_nodes _ _ _ Hcut).
    destruct (outcome _) as [[]| |]; [by destruct (Hout ())|..];
      by apply nodes_post_start.
  - rewrite Heq in *. simpl in *.
    destruct (setup_events_read args r0 asg' gs snap' r3
                (trace (loop_and_cleanup args asg' snap' rs'))) as [Ha Hs].
    simplify_eq/=.
    pose proof (loop_and_cleanup_nodes args asg snap no_nodes rs'
                  (conj eq_refl (conj eq_refl eq_refl))) as H.
    by destruct (outcome _).
Qed.

Lemma terms_ok_lookup D ts l k t :
  terms_ok D ts l → ts !! k = Some t →
  ∃ arn, l !! k = Some arn ∧ term_for (D ++ take (S k) l) arn t.
Proof.
  revert D l k. induction ts as [|t' ts IH]; intros D l k Hok Hk; [done|].
  destruct l as [|arn l]; [done|]. destruct Hok as [Ht Hok].
  destruct k as [|k]; simpl in *.
  - simplify_eq. exists arn. by rewrite take_0.
  - destruct (IH _ _ _ Hok Hk) as (arn' & Hl & Hfor).
    exists arn'. split; [done|]. by rewrite <- app_assoc in Hfor.
Qed.

Lemma term_for_node D arn t : term_for D arn t → term_node t = Some arn.
Proof. intros (_ & _ & ci & Hd & _). unfold term_node. by rewrite Hd. Qed.

Lemma terms_ok_nodes D ts l :
  terms_ok D ts l → term_node <$> ts = Some <$> take (length ts) l.
Proof.
  revert D l. induction ts as [|t ts IH]; intros D l Hok; [done|].
  destruct l as [|arn l]; [done|]. destruct Hok as [Ht Hok].
  change (take (length (t :: ts)) (arn :: l)) with (arn :: take (length ts) l).
  by rewrite !fmap_cons, (term_for_node _ _ _ Ht), (IH _ _ Hok).
Qed.

Lemma to_drain_0 d (snap : list string) :
  to_drain d 0 snap = take (Z.to_nat (Z.max d 1)) snap.
Proof. unfold to_drain. by rewrite Z.sub_0_r. Qed.

Lemma to_terminate_0 d (snap : list string) :
  to_terminate d 0 snap = take (Z.to_nat (d - 1)) snap.
Proof. unfold to_terminate. by rewrite Z.sub_0_r. Qed.

(** A run that is cut short before it has read the group or the nodes makes
    no drain and no terminate call. *)
Lemma handler_reads args event context rs :
  let tr := trace (handler args event context rs) in
  (drains tr = [] ∧ terminations tr = [] ∧
   ∀ u, outcome (handler args event context rs) ≠ Done u) ∨
  (∃ asg snap, read_settings tr = Some asg ∧ read_snapshot tr = Some snap).
Proof.
  intros tr. subst tr.
  destruct (handler_cases args event context rs)
    as [[Hcut Hout]|(r0 & asg' & gs & snap' & r3 & rs' & Heq)].
  - left. unfold drains, terminations. by rewrite (setup_cut_nodes _ _ _ Hcut).
  - right. rewrite Heq. by exists asg', snap'.
Qed.

(** ** The shape of a whole run *)

Lemma after_all φ (s : Prop) tr : after (all_step φ) s tr ↔ s ∧ Forall φ tr.
Proof.
  unfold after. revert s. induction tr as [|e tr IH]; intros s; simpl.
  - split; [by intros ?; split|by intros [? _]].
  - rewrite IH, Forall_cons. unfold all_step. tauto.
Qed.

Lemma recycle_events args d nd arns : ∀ i rs,
  Forall (loop_event args) (trace (recycle args d nd i arns rs)).
Proof.
  assert (∀ i, triple (all_step (loop_event args)) (λ s, s)
                 (recycle args d nd i arns) (λ _ s, s) (λ s, s)) as H.
  { induction arns as [|arn arns IH]; intros i; [by apply triple_ret|].
    simpl.
    eapply triple_bind with (Q := λ _ s, s).
    { by apply triple_wait_for_ecs_count. }
    intros _. eapply triple_bind with (Q := λ _ s, s); [by apply triple_sleep|].
    intros _. eapply triple_bind with (Q := λ _ s, s); [by apply triple_invoke|].
    intros _. eapply triple_bind with (Q := λ _ s, s).
    { by apply triple_poll_until. }
    intros ci. eapply triple_bind with (Q := λ _ s, s); [by apply triple_sleep|].
    intros _. case_bool_decide; [by apply triple_ret|].
    eapply triple_bind with (Q := λ _ s, s); [by apply triple_invoke|].
    intros _. eapply triple_bind with (Q := λ _ s, s); [by apply triple_sleep|].
    intros _. apply IH. }
  intros i rs. specialize (H i True rs I).
  assert (after (all_step (loop_event args)) True
            (trace (recycle args d nd i arns rs))) as H'
    by by destruct (outcome _).
  by apply after_all in H' as [_ ?].
Qed.

Lemma cleanup_spec args asg rs :
  let run := cleanup (ASG_NAME args) (DesiredCapacity asg) (MaxSize asg) rs in
  cleanup_events args asg (outcome run) (trace run).
Proof.
  destruct rs as [|r0 [|r1 rs]]; [by left|..].
  - destruct r0; simpl; try (right; eexists; by split); by eexists; split; [|left].
  - destruct r0, r1; simpl;
      try (by eexists _, _); try (by eexists; split; [|left]);
      by (eexists; split; [done|right; by eexists]).
Qed.

(** Every run of [handler] is cut short during the setup, or consists of the
    events of a completed setup, then events of the loop, then (when the
    loop ended normally) the events of the cleanup. *)
Lemma handler_shape args event context rs :
  let run := handler args event context rs in
  (setup_cut args (trace run) ∧ ∀ u, outcome run ≠ Done u) ∨
  (∃ r0 asg gs snap r3 lp cl,
     trace run = setup_events args r0 asg gs snap r3 ++ lp ++ cl ∧
     Forall (loop_event args) lp ∧
     ((cl = [] ∧ ∀ u, outcome run ≠ Done u) ∨ cleanup_events args asg (outcome run) cl)).
Proof.
  intros run. subst run.
  destruct (handler_cases args event context rs)
    as [?|(r0 & asg & gs & snap & r3 & rs' & Heq)]; [by left|].
  right. exists r0, asg, gs, snap, r3. rewrite Heq. simpl.
  unfold loop_and_cleanup. rewrite bind_trace, bind_outcome.
  eexists _, _. split; [done|]. split; [apply recycle_events|].
  destruct (outcome (recycle _ _ _ _ _ _)); [|by left..].
  right. apply cleanup_spec.
Qed.

(** ** The group *)

Lemma answered_returned r : answered r → returned (Some r) = true.
Proof. intros H. destruct r; try done. by destruct (H message). Qed.

Lemma loop_events_group args name lp g :
  Forall (loop_event args) lp → after (group_step name) g lp = g.
Proof.
  unfold after. intros H. revert g.
  induction H as [|e lp He _ IH]; intros g; [done|]. simpl. rewrite <- (IH g) at 2.
  f_equal. destruct e as [c r|]; [|done]. simpl.
  destruct (returned r); [|done]. destruct c; try done. simpl in He. by subst.
Qed.

Lemma loop_events_no_resume args lp :
  Forall (loop_event args) lp → Forall (λ e, is_resume e = false) lp.
Proof. intros H. eapply Forall_impl; [done|]. by intros [[]|]. Qed.

Lemma setup_events_read_settings args r0 asg gs snap r3 tr :
  read_settings (setup_events args r0 asg gs snap r3 ++ tr) = Some asg.
Proof. done. Qed.

Lemma setup_cut_no_resume args tr :
  setup_cut args tr → Forall (λ e, is_resume e = false) tr.
Proof.
  intros [(r & ->)|[(r0 & r & ->)|[(r0 & asg & gs & r & ->)|(r0 & asg & gs & snap & r & ->)]]];
    by repeat constructor.
Qed.

Lemma group_step_resume args g r :
  answered r →
  group_step (ASG_NAME args) g (resume_event args (Some r)) =
  {| group_desired := group_desired g; group_max := group_max g;
     group_suspended := group_suspended g ∖ list_to_set SUSPEND_PROCESSES |}.
Proof.
  intros Hr. unfold resume_event, group_step.
  by rewrite (answered_returned _ Hr), bool_decide_eq_true_2.
Qed.

Lemma group_step_restore args asg g r :
  answered r →
  group_step (ASG_NAME args) g (restore_event args asg (Some r)) =
  {| group_desired := DesiredCapacity asg; group_max := MaxSize asg;
     group_suspended := group_suspended g |}.
Proof.
  intros Hr. unfold restore_event, group_step.
  by rewrite (answered_returned _ Hr), bool_decide_eq_true_2.
Qed.

Lemma group_after_setup args g r0 asg gs snap r3 :
  group_suspended (group_after (ASG_NAME args) g (setup_events args r0 asg gs snap r3))
    ∖ list_to_set SUSPEND_PROCESSES
  = group_suspended g ∖ list_to_set SUSPEND_PROCESSES.
Proof.
  unfold group_after, after, setup_events, suspend_event, read_event, snapshot_event,
    scale_up_event.
  generalize SUSPEND_PROCESSES. intros ps. cbn [fold_left group_step].
  rewrite !bool_decide_eq_true_2 by done.
  destruct (returned (Some r0)), (returned (Some r3)),
    (returned (Some (RGroups (asg :: gs)))), (returned (Some (RArns snap)));
    simpl; set_solver.
Qed.

(** ** The capacity updates of a run *)

Lemma scale_up_arith d m :
  0 ≤ d → d ≤ m →
  new_desired_capacity_of d = d + 1 ∧
  new_max_size_of (new_desired_capacity_of d) m = Z.max m (d + 1) ∧
  (d = m → new_max_size_of (new_desired_capacity_of d) m = m + 1) ∧
  (d < m → new_max_size_of (new_desired_capacity_of d) m = m) ∧
  new_desired_capacity_of d ≤ new_max_size_of (new_desired_capacity_of d) m.
Proof.
  intros Hd Hm. unfold new_max_size_of, new_desired_capacity_of.
  case_bool_decide; lia.
Qed.

Lemma setup_cut_read args tr asg :
  setup_cut args tr → read_settings tr = Some asg →
  ∀ e, e ∈ tr → ∀ name mx ds r, e = Remote (update_auto_scaling_group name mx ds) r →
    e = scale_up_event args asg r.
Proof.
  intros [(r & ->)|[(r0 & r & ->)|[(r0 & asg' & gs & r & ->)|(r0 & asg' & gs & snap & r & ->)]]]
    Hread e He name mx ds r' ->; simpl in Hread;
    repeat (apply elem_of_cons in He as [He|He]; [try discriminate He|]);
    try by apply elem_of_nil in He.
  unfold scale_up_event in *. by simplify_eq.
Qed.

(** A capacity update of a run is the scale-up of the setup or the restore
    of the cleanup, for the group read at the start. *)
Lemma handler_updates args event context rs e name mx ds r :
  let tr := trace (handler args event context rs) in
  e ∈ tr → e = Remote (update_auto_scaling_group name mx ds) r →
  ∀ asg, read_settings tr = Some asg →
    e = scale_up_event args asg r ∨ e = restore_event args asg r.
Proof.
  intros tr He Heq asg Hasg. subst tr.
  destruct (handler_shape args event context rs)
    as [[Hcut _]|(r0 & asg' & gs & snap & r3 & lp & cl & Htr & Hlp & Hcl)].
  { left. by eapply setup_cut_read. }
  rewrite Htr in He, Hasg. rewrite setup_events_read_settings in Hasg. simplify_eq.
  apply elem_of_app in He as [He|He].
  { left. unfold setup_events in He.
    repeat (apply elem_of_cons in He as [He|He]; [try discriminate He|]);
      [|by apply elem_of_nil in He].
    unfold scale_up_event in *. by simplify_eq. }
  apply elem_of_app in He as [He|He].
  { rewrite Forall_forall in Hlp. by destruct (Hlp _ He). }
  right. destruct Hcl as [[-> _]|Hcl]; [by apply elem_of_nil in He|].
  unfold cleanup_events, resume_event, restore_event in *.
  destruct (outcome _) as [[]| |].
  - destruct Hcl as (r0' & r1' & -> & _).
    repeat (apply elem_of_cons in He as [He|He]; [try discriminate He|]);
      [by simplify_eq|by apply elem_of_nil in He].
  - destruct Hcl as (msg & _ & [->|(r0' & -> & _)]);
      repeat (apply elem_of_cons in He as [He|He]; [try discriminate He|]);
      try (by apply elem_of_nil in He); by simplify_eq.
  - destruct Hcl as [->|(r0' & -> & _)];
      repeat (apply elem_of_cons in He as [He|He]; [try discriminate He|]);
      try (by apply elem_of_nil in He); by simplify_eq.
Qed.

(** ** Drain calls *)

Lemma drained_grows tr : ∀ s a, a ∈ drained s → a ∈ drained (after nodes_step s tr).
Proof.
  unfold after. induction tr as [|e tr IH]; intros s a Ha; [done|].
  simpl. apply IH. destruct e as [[] [[| | |[|??]|]|]|]; simpl; try done;
    apply elem_of_app; by left.
Qed.

Lemma drain_call_drained tr : ∀ s cl arns st r a,
  Remote (update_container_instances_state cl arns st) r ∈ tr → a ∈ arns →
  a ∈ drained (after nodes_step s tr).
Proof.
  induction tr as [|e tr IH]; intros s cl arns st r a He Ha;
    [by apply elem_of_nil in He|].
  apply elem_of_cons in He as [<-|He].
  - unfold after. simpl. apply drained_grows. simpl. apply elem_of_app. by right.
  - unfold after. simpl. by eapply IH.
Qed.

Lemma setup_cut_no_drain args tr cl arns st r :
  setup_cut args tr → Remote (update_container_instances_state cl arns st) r ∉ tr.
Proof.
  intros [(r' & ->)|[(r0 & r' & ->)|[(r0 & asg & gs & r' & ->)|(r0 & asg & gs & snap & r' & ->)]]]
    He;
    repeat (apply elem_of_cons in He as [He|He]; [try discriminate He|]);
    by apply elem_of_nil in He.
Qed.

(** ** Completed runs *)


Lemma handler_done_nodes args event context rs asg snap :
  let run := handler args event context rs in
  outcome run = Done tt →
  read_settings (trace run) = Some asg →
  read_snapshot (trace run) = Some snap →
  drains (trace run) = take (Z.to_nat (Z.max (DesiredCapacity asg) 1)) snap ∧
  drain_waits (trace run) = drains (trace run) ∧
  term_node <$> terminations (trace run) =
    Some <$> take (Z.to_nat (DesiredCapacity asg - 1)) snap ∧
  length (terminations (trace run)) =
    length (take (Z.to_nat (DesiredCapacity asg - 1)) snap).
Proof.
  intros run Hdone Hasg Hsnap. subst run.
  pose proof (handler_nodes args event context rs asg snap Hasg Hsnap) as H.
  simpl in H. rewrite Hdone in H.
  destruct H as (ds & ws & ts & HD & HW & HT & _ & _ & Hok & _ & Hc).
  destruct (Hc eq_refl) as (-> & -> & Hlen). simpl in HD, HW, HT.
  unfold drains, drain_waits, terminations. rewrite HD, HW, HT.
  rewrite to_drain_0, to_terminate_0 in *. split_and!; try done.
  by rewrite (terms_ok_nodes _ _ _ Hok), Hlen, take_ge.
Qed.

Lemma handler_terminate_calls args event context rs i iid dec r :
  trace (handler args event context rs) !! i =
    Some (Remote (terminate_instance_in_auto_scaling_group iid dec) r) →
  dec = false.
Proof.
  intros Hi. apply list_elem_of_lookup_2 in Hi as He.
  destruct (handler_shape args event context rs)
    as [[Hcut _]|(r0 & asg & gs & snap & r3 & lp & cl' & Htr & Hlp & Hcl)].
  { destruct Hcut as [(r' & Heq)|[(r0 & r' & Heq)|[(r0 & asg & gs & r' & Heq)|
      (r0 & asg & gs & snap & r' & Heq)]]]; rewrite Heq in He;
      repeat (apply elem_of_cons in He as [He|He]; [try discriminate He|]);
      by apply elem_of_nil in He. }
  rewrite Htr in He.
  apply elem_of_app in He as [He|He].
  { repeat (apply elem_of_cons in He as [He|He]; [try discriminate He|]).
    by apply elem_of_nil in He. }
  apply elem_of_app in He as [He|He].
  { rewrite Forall_forall in Hlp. by apply (Hlp _ He). }
  destruct Hcl as [[-> _]|Hcl]; [by apply elem_of_nil in He|].
  unfold cleanup_events, resume_event, restore_event in Hcl.
  destruct (outcome _) as [[]| |].
  - destruct Hcl as (r0' & r1' & -> & _).
    repeat (apply elem_of_cons in He as [He|He]; [try discriminate He|]).
    by apply elem_of_nil in He.
  - destruct Hcl as (msg & _ & [->|(r0' & -> & _)]);
      repeat (apply elem_of_cons in He as [He|He]; [try discriminate He|]);
      by apply elem_of_nil in He.
  - destruct Hcl as [->|(r0' & -> & _)];
      repeat (apply elem_of_cons in He as [He|He]; [try discriminate He|]);
      by apply elem_of_nil in He.
Qed.

(** ** The counts of container instances *)

Lemma listed_after tr : ∀ s,
  count_listed (after counts_step s tr) = count_listed s ++ omap listing tr.
Proof.
  unfold after. induction tr as [|e tr IH]; intros s; simpl; [by rewrite app_nil_r|].
  rewrite IH. destruct e as [[] [[]|]|]; simpl; try done. by rewrite <- app_assoc.
Qed.

Lemma counts_inv_weaken d s : counts_inv d 1 s → counts_inv d 0 s.
Proof. intros H Hs. destruct (H Hs). split; [lia|done]. Qed.

Lemma counts_inv_listed d spare s cl arns :
  counts_inv d 0 s → d + spare ≤ Z.of_nat (length arns) →
  counts_inv d spare
    (counts_step s (Remote (list_container_instances cl) (Some (RArns arns)))).
Proof.
  intros H Hn Hs. simpl in *. apply andb_prop in Hs as [Hs Hle].
  apply bool_decide_eq_true_1 in Hle. destruct (H Hs) as [Hfl Hall].
  split; [done|]. apply Forall_app. split; [done|]. apply Forall_singleton. lia.
Qed.

Lemma counts_inv_polled d s cl arns :
  counts_inv d 0 s →
  counts_inv d 0
    (counts_step s (Remote (list_container_instances cl) (Some (RArns arns)))).
Proof.
  intros H Hs. simpl in *. apply andb_prop in Hs as [Hs Hle].
  apply bool_decide_eq_true_1 in Hle. destruct (H Hs) as [Hfl Hall].
  split; [lia|]. apply Forall_app. split; [done|]. apply Forall_singleton. lia.
Qed.

Lemma counts_inv_terminate d s instance decrement r :
  counts_inv d 1 s →
  counts_inv d 0
    (counts_step s (Remote (terminate_instance_in_auto_scaling_group instance decrement) r)).
Proof. intros H Hs. simpl in *. destruct (H Hs). split; [lia|done]. Qed.

Section Counts.

Variable args : Args.
Variable d : Z.

Local Abbreviation triple := (triple counts_step).

Lemma wait_for_ecs_count_counts :
  triple (counts_inv d 0)
    (wait_for_ecs_count (d + 1) (ECS_CLUSTER args) POLL_INTERVAL)
    (λ _, counts_inv d 1) (counts_inv d 0).
Proof.
  apply triple_wait_for_ecs_count; [done|..].
  - by intros s Hs.
  - intros s r Hs Hr. by destruct r as [| | arns | |]; [..|destruct (Hr arns)|idtac|idtac].
  - intros s arns Hs Hge.
    apply (counts_inv_listed d 1 s (ECS_CLUSTER args) arns); [done|lia].
  - intros s arns Hs Hlt.
    by apply (counts_inv_polled d s (ECS_CLUSTER args) arns).
Qed.

Lemma wait_drained_counts arn :
  triple (counts_inv d 1) (wait_drained args arn) (λ _, counts_inv d 1) (counts_inv d 0).
Proof.
  apply triple_poll_until; [done|..].
  - intros s Hs. by apply counts_inv_weaken.
  - intros s msg Hs. by apply counts_inv_weaken.
  - intros s r e Hs _. by apply counts_inv_weaken.
  - by intros s r x Hs _ _.
  - by intros s r x Hs _ _.
Qed.

Lemma recycle_counts arns : ∀ i,
  triple (counts_inv d 0) (recycle args d (d + 1) i arns)
    (λ _, counts_inv d 0) (counts_inv d 0).
Proof.
  induction arns as [|arn arns IH]; intros i; [by apply triple_ret|].
  simpl.
  eapply triple_bind; [apply wait_for_ecs_count_counts|].
  intros ?. eapply triple_bind with (Q := λ _, counts_inv d 1); [by apply triple_sleep|].
  intros ?. eapply triple_bind with (Q := λ _, counts_inv d 1).
  { apply triple_invoke; [|done]. intros s r Hs. by apply counts_inv_weaken. }
  intros ?. eapply triple_bind; [apply wait_drained_counts|].
  intros ci. eapply triple_bind with (Q := λ _, counts_inv d 1); [by apply triple_sleep|].
  intros ?. case_bool_decide.
  { apply triple_ret. apply counts_inv_weaken. }
  eapply triple_bind with (Q := λ _, counts_inv d 0).
  { apply triple_invoke; intros s r Hs; by apply counts_inv_terminate. }
  intros ?. eapply triple_bind with (Q := λ _, counts_inv d 0); [by apply triple_sleep|].
  intros ?. apply IH.
Qed.

End Counts.

Lemma loop_and_cleanup_counts args asg snap :
  triple counts_step (counts_inv (DesiredCapacity asg) 0) (loop_and_cleanup args asg snap)
    (λ _, counts_inv (DesiredCapacity asg) 0) (counts_inv (DesiredCapacity asg) 0).
Proof.
  unfold loop_and_cleanup, cleanup.
  eapply triple_bind; [apply recycle_counts|].
  intros ?.
  eapply triple_bind with (Q := λ _, counts_inv (DesiredCapacity asg) 0);
    [by apply triple_invoke|].
  intros ?.
  eapply triple_bind with (Q := λ _, counts_inv (DesiredCapacity asg) 0);
    [by apply triple_invoke|].
  intros ?. by apply triple_ret.
Qed.

Lemma setup_cut_after_scale_up args tr : setup_cut args tr → after_scale_up tr = [].
Proof.
  by intros [(r & ->)|[(r0 & r & ->)|[(r0 & asg & gs & r & ->)|(r0 & asg & gs & snap & r & ->)]]].
Qed.

(** ** Runs that complete *)

Lemma wait_for_ecs_count_enough wanted cluster poll arns rs :
  Z.of_nat (length arns) >= wanted →
  wait_for_ecs_count wanted cluster poll (RArns arns :: rs) =
  MkRun [Remote (list_container_instances cluster) (Some (RArns arns))] (Done tt) rs.
Proof.
  intros H. unfold wait_for_ecs_count, mbind, M_bind, bind. simpl.
  by rewrite bool_decide_eq_true_2.
Qed.

Lemma bind_finishes {A B} (m : M A) (k : A → M B) rs t a rs' b x :
  m rs = MkRun t (Done a) rs' →
  outcome (k a rs') = Done b ∧ rest (k a rs') = x →
  outcome ((m ≫= k) rs) = Done b ∧ rest ((m ≫= k) rs) = x.
Proof. intros Hm Hk. rewrite bind_outcome, bind_rest, Hm. done. Qed.

Lemma recycle_prompt args d arns : ∀ i k,
  outcome (recycle args d (d + 1) i arns (prompt_replies d i arns ++ k)) = Done tt ∧
  rest (recycle args d (d + 1) i arns (prompt_replies d i arns ++ k)) = k.
Proof.
  induction arns as [|arn arns IH]; intros i k; [done|].
  cbn [recycle prompt_replies]. rewrite <- !app_comm_cons.
  eapply bind_finishes.
  { apply wait_for_ecs_count_enough. rewrite length_replicate. lia. }
  eapply bind_finishes; [reflexivity|].
  eapply bind_finishes; [reflexivity|].
  eapply bind_finishes; [by apply wait_drained_idle|].
  eapply bind_finishes; [reflexivity|].
  case_bool_decide; [done|]. rewrite <- !app_comm_cons.
  eapply bind_finishes; [reflexivity|].
  eapply bind_finishes; [reflexivity|].
  apply IH.
Qed.

(** For every group and every snapshot there is a run that completes. *)
Lemma handler_completes args event context asg snap :
  outcome (handler args event context (prompt_run asg snap)) = Done tt ∧
  rest (handler args event context (prompt_run asg snap)) = [].
Proof.
  unfold prompt_run, handler, get_asg.
  eapply bind_finishes; [reflexivity|].
  eapply bind_finishes; [reflexivity|].
  eapply bind_finishes; [reflexivity|].
  eapply bind_finishes; [reflexivity|].
  eapply bind_finishes; [reflexivity|].
  eapply bind_finishes with (a := tt) (rs' := [ROther; ROther]).
  { apply run_done. apply recycle_prompt. }
  done.
Qed.

Lemma handler_completes_reads args event context asg snap :
  read_settings (trace (handler args event context (prompt_run asg snap))) = Some asg ∧
  read_snapshot (trace (handler args event context (prompt_run asg snap))) = Some snap.
Proof.
  rewrite handler_split.
  assert (setup args (prompt_run asg snap) =
          MkRun (setup_events args ROther asg [] snap ROther) (Done (asg, snap))
            (prompt_replies (DesiredCapacity asg) 0 snap ++ [ROther; ROther])) as Hs
    by reflexivity.
  rewrite bind_trace, Hs. done.
Qed.

Lemma terms_ok_length D ts l : terms_ok D ts l → (length ts ≤ length l)%nat.
Proof.
  revert D l. induction ts as [|t ts IH]; intros D l Hok; simpl; [lia|].
  destruct l as [|arn l]; [done|]. destruct Hok as [_ Hok]. simpl.
  specialize (IH _ _ Hok). lia.
Qed.

(** ** The operands of the calls *)

Lemma handler_configured args event context rs :
  Forall (configured args) (trace (handler args event context rs)).
Proof.
  destruct (handler_shape args event context rs)
    as [[Hcut _]|(r0 & asg & gs & snap & r3 & lp & cl & -> & Hlp & Hcl)].
  { destruct Hcut as [(r & ->)|[(r0 & r & ->)|[(r0 & asg & gs & r & ->)|
      (r0 & asg & gs & snap & r & ->)]]]; by repeat constructor. }
  apply Forall_app. split; [by repeat constructor|].
  apply Forall_app. split.
  { eapply Forall_impl; [done|]. intros [[] ?|]; simpl; try done; by intros (? & _). }
  destruct Hcl as [[-> _]|Hcl]; [constructor|].
  unfold cleanup_events in Hcl. destruct (outcome _) as [[]| |].
  - destruct Hcl as (r0' & r1' & -> & _). by repeat constructor.
  - destruct Hcl as (msg & _ & [->|(r0' & -> & _)]); by repeat constructor.
  - destruct Hcl as [->|(r0' & -> & _)]; by repeat constructor.
Qed.

(** ** What comes before a terminate call *)

Lemma snoc_split {A} (h pre post : list A) e e' :
  h ++ [e] = pre ++ e' :: post →
  (post = [] ∧ pre = h ∧ e' = e) ∨ ∃ post', post = post' ++ [e] ∧ h = pre ++ e' :: post'.
Proof.
  destruct post as [|x post _] using rev_ind; intros Heq.
  - apply app_inj_tail in Heq as [-> ->]. by left.
  - right. exists post.
    change (h ++ [e] = pre ++ (e' :: post) ++ [x]) in Heq.
    rewrite app_assoc in Heq. by apply app_inj_tail in Heq as [-> ->].
Qed.

Lemma terminate_gated_nil wanted : terminate_gated wanted [].
Proof. intros pre e post Heq. by destruct pre. Qed.

Lemma terminate_gated_snoc wanted h e :
  terminate_gated wanted h → is_terminate e = false → terminate_gated wanted (h ++ [e]).
Proof.
  intros Hh He pre e' post Heq He'.
  apply snoc_split in Heq as [(_ & _ & ->)|(post' & _ & ->)]; [congruence|].
  by eapply Hh.
Qed.

Lemma terminate_gated_terminate wanted h e :
  terminate_gated wanted h → listed_enough wanted h → terminate_gated wanted (h ++ [e]).
Proof.
  intros Hh Hl pre e' post Heq He'.
  apply snoc_split in Heq as [(_ & -> & _)|(post' & _ & ->)]; [done|].
  by eapply Hh.
Qed.

Lemma listed_enough_snoc wanted h e :
  listed_enough wanted h → is_listing e = false → is_terminate e = false →
  listed_enough wanted (h ++ [e]).
Proof.
  intros (pre & cl & l & mid & -> & Hn & Hmid) H1 H2.
  exists pre, cl, l, (mid ++ [e]). split; [by rewrite <- app_assoc|].
  split; [done|]. apply Forall_app. split; [done|]. by constructor.
Qed.

Lemma listed_enough_new wanted h cluster listed :
  Z.of_nat (length listed) >= wanted →
  listed_enough wanted (h ++ [Remote (list_container_instances cluster) (Some (RArns listed))]).
Proof. intros Hn. exists h, cluster, listed, []. by split_and!. Qed.

Section TerminateGate.

Variable args : Args.
Variables d wanted : Z.

Local Abbreviation triple := (triple (λ (h : Trace) e, h ++ [e])).
Local Abbreviation ready := (λ h : Trace, terminate_gated wanted h ∧ listed_enough wanted h).

Lemma recycle_terminate_gated arns : ∀ i,
  triple (terminate_gated wanted) (recycle args d wanted i arns)
    (λ _, terminate_gated wanted) (terminate_gated wanted).
Proof.
  induction arns as [|arn arns IH]; intros i; [by apply triple_ret|].
  simpl.
  eapply triple_bind with (Q := λ _, ready).
  { apply triple_wait_for_ecs_count; [done|..].
    - intros h Hh. by apply terminate_gated_snoc.
    - intros h r Hh _. by apply terminate_gated_snoc.
    - intros h l Hh Hn. split; [by apply terminate_gated_snoc|].
      by apply listed_enough_new.
    - intros h l Hh Hn.
      apply terminate_gated_snoc; [by apply terminate_gated_snoc|done]. }
  intros ?. eapply triple_bind with (Q := λ _, ready).
  { apply triple_sleep; [done|]. intros h [Hh Hl].
    split; [by apply terminate_gated_snoc|by apply listed_enough_snoc]. }
  intros ?. eapply triple_bind with (Q := λ _, ready).
  { apply triple_invoke.
    - intros h r [Hh _]. by apply terminate_gated_snoc.
    - intros h r [Hh Hl].
      split; [by apply terminate_gated_snoc|by apply listed_enough_snoc]. }
  intros ?. eapply triple_bind with (Q := λ _, ready).
  { apply triple_poll_until with (J := ready); [done|..].
    - intros h [Hh _]. by apply terminate_gated_snoc.
    - intros h msg [Hh _]. by apply terminate_gated_snoc.
    - intros h r e [Hh _] _. by apply terminate_gated_snoc.
    - intros h r x [Hh Hl] _ _.
      split; [by apply terminate_gated_snoc|by apply listed_enough_snoc].
    - intros h r x [Hh Hl] _ _. split.
      + apply terminate_gated_snoc; [by apply terminate_gated_snoc|done].
      + apply listed_enough_snoc; [by apply listed_enough_snoc|done..]. }
  intros ci. eapply triple_bind with (Q := λ _, ready).
  { apply triple_sleep; [done|]. intros h [Hh Hl].
    split; [by apply terminate_gated_snoc|by apply listed_enough_snoc]. }
  intros ?. case_bool_decide.
  { apply triple_ret. by intros h [Hh _]. }
  eapply triple_bind with (Q := λ _, terminate_gated wanted).
  { apply triple_invoke; intros h r [Hh Hl]; by apply terminate_gated_terminate. }
  intros ?. eapply triple_bind with (Q := λ _, terminate_gated wanted).
  { apply triple_sleep; [done|]. intros h Hh. by apply terminate_gated_snoc. }
  intros ?. apply IH.
Qed.

End TerminateGate.

Lemma loop_and_cleanup_terminate_gated args asg snap :
  triple (λ (h : Trace) e, h ++ [e]) (terminate_gated (DesiredCapacity asg + 1))
    (loop_and_cleanup args asg snap)
    (λ _, terminate_gated (DesiredCapacity asg + 1))
    (terminate_gated (DesiredCapacity asg + 1)).
Proof.
  unfold loop_and_cleanup, cleanup, new_desired_capacity_of.
  eapply triple_bind; [apply recycle_terminate_gated|].
  intros ?. eapply triple_bind with (Q := λ _, terminate_gated (DesiredCapacity asg + 1)).
  { apply triple_invoke; intros h r Hh; by apply terminate_gated_snoc. }
  intros ?. eapply triple_bind with (Q := λ _, terminate_gated (DesiredCapacity asg + 1)).
  { apply triple_invoke; intros h r Hh; by apply terminate_gated_snoc. }
  intros ?. by apply triple_ret.
Qed.

(** ** The polling loop, reply by reply *)

Lemma sleep_check_in_range secs : 0 ≤ secs ≤ SLEEP_MAX → sleep_check secs = None.
Proof.
  intros H. unfold sleep_check, SLEEP_MAX in *.
  rewrite bool_decide_eq_false_2 by lia. by rewrite bool_decide_eq_false_2 by lia.
Qed.

Lemma poll_until_again {A} c (decode : Reply → Exn + A) stop poll_interval r x rs :
  sleep_check poll_interval = None →
  (∀ msg, r ≠ RError msg) → decode r = inr x → stop x = false →
  poll_until c decode stop poll_interval (r :: rs) =
  prepend [Remote c (Some r); Sleep poll_interval]
    (poll_until c decode stop poll_interval rs).
Proof.
  intros Hc Hr Hd Hs. destruct r as [| | | |msg]; simpl in *; rewrite ?Hd, ?Hs, ?Hc;
    try done.
  by destruct (Hr msg).
Qed.

Lemma wait_for_ecs_count_short wanted cluster poll r rs :
  sleep_check poll = None →
  short_listing wanted r = true →
  wait_for_ecs_count wanted cluster poll (r :: rs) =
  prepend (short_polls cluster poll [r]) (wait_for_ecs_count wanted cluster poll rs).
Proof.
  intros Hc. destruct r as [| |arns| |]; try done. simpl. intros Hs%negb_true_iff.
  unfold wait_for_ecs_count, mbind, M_bind, bind.
  rewrite (poll_until_again _ _ _ _ (RArns arns) arns) by done.
  unfold prepend. simpl. by destruct (outcome _).
Qed.

Lemma wait_for_ecs_count_pending wanted cluster poll :
  wait_for_ecs_count wanted cluster poll [] =
  MkRun [Remote (list_container_instances cluster) None] Pending [].
Proof. reflexivity. Qed.

Lemma wait_for_ecs_count_first_enough wanted cluster poll pre arns rs :
  sleep_check poll = None →
  forallb (short_listing wanted) pre = true →
  Z.of_nat (length arns) >= wanted →
  wait_for_ecs_count wanted cluster poll (pre ++ RArns arns :: rs) =
  MkRun (short_polls cluster poll pre ++
         [Remote (list_container_instances cluster) (Some (RArns arns))]) (Done tt) rs.
Proof.
  intros Hc Hpre Hn. induction pre as [|r pre IH]; simpl.
  - by apply wait_for_ecs_count_enough.
  - simpl in Hpre. apply andb_prop in Hpre as [Hr Hpre].
    rewrite wait_for_ecs_count_short, IH by done. reflexivity.
Qed.

Lemma wait_for_ecs_count_all_short wanted cluster poll rs :
  sleep_check poll = None →
  forallb (short_listing wanted) rs = true →
  wait_for_ecs_count wanted cluster poll rs =
  MkRun (short_polls cluster poll rs ++ [Remote (list_container_instances cluster) None])
    Pending [].
Proof.
  intros Hc. induction rs as [|r rs IH]; simpl; [done|].
  intros [Hr Hrs]%andb_prop. rewrite wait_for_ecs_count_short, IH by done. reflexivity.
Qed.

Lemma wait_for_ecs_count_done wanted cluster poll rs :
  sleep_check poll = None →
  outcome (wait_for_ecs_count wanted cluster poll rs) = Done tt →
  ∃ pre arns,
    rs = pre ++ RArns arns :: rest (wait_for_ecs_count wanted cluster poll rs) ∧
    forallb (short_listing wanted) pre = true ∧
    Z.of_nat (length arns) >= wanted.
Proof.
  intros Hc. induction rs as [|r rs IH]; [done|].
  destruct (short_listing wanted r) eqn:Hr.
  - rewrite wait_for_ecs_count_short by done. simpl. intros Hd.
    destruct (IH Hd) as (pre & arns & Hrs & Hpre & Hn).
    exists (r :: pre), arns. simpl. rewrite Hr. split_and!; try done.
    by rewrite <- Hrs.
  - destruct r as [| |arns| |]; try done. simpl in Hr.
    apply negb_false_iff, bool_decide_eq_true_1 in Hr.
    rewrite wait_for_ecs_count_enough by done. simpl. intros _.
    by exists [], arns.
Qed.

Lemma wait_for_ecs_count_raises wanted cluster poll pre r e rs :
  sleep_check poll = None →
  forallb (short_listing wanted) pre = true →
  unreadable_listing r = Some e →
  wait_for_ecs_count wanted cluster poll (pre ++ r :: rs) =
  MkRun (short_polls cluster poll pre ++
         [Remote (list_container_instances cluster) (Some r)]) (Raised e) rs.
Proof.
  intros Hc Hpre Hr. induction pre as [|r' pre IH]; simpl.
  - by destruct r; simplify_eq/=.
  - simpl in Hpre. apply andb_prop in Hpre as [Hr' Hpre].
    rewrite wait_for_ecs_count_short, IH by done. reflexivity.
Qed.

(** ** [cleanup], reply by reply *)

Lemma cleanup_trace asg_name desired_capacity max_size rs :
  let run := cleanup asg_name desired_capacity max_size rs in
  let resume := resume_processes asg_name SUSPEND_PROCESSES in
  let restore := update_auto_scaling_group asg_name max_size desired_capacity in
  (∃ r, trace run = [Remote resume r] ∧ returned r = false ∧
        ∀ u, outcome run ≠ Done u) ∨
  (∃ r0 r, trace run = [Remote resume (Some r0); Remote restore r] ∧
           returned (Some r0) = true ∧ returned r = false ∧
           ∀ u, outcome run ≠ Done u) ∨
  (∃ r0 r1, trace run = [Remote resume (Some r0); Remote restore (Some r1)] ∧
            returned (Some r0) = true ∧ returned (Some r1) = true ∧
            outcome run = Done tt ∧ rs = r0 :: r1 :: rest run).
Proof.
  destruct rs as [|r0 [|r1 rs]].
  - left. by exists None.
  - destruct r0; try (right; left; by eexists _, None); left; by eexists (Some _).
  - destruct r0; try (left; by eexists (Some _));
      destruct r1; try (right; left; by eexists _, (Some _));
      right; right; by eexists _, _.
Qed.

Lemma group_step_resume_returned name g ps r :
  returned (Some r) = true →
  group_step name g (Remote (resume_processes name ps) (Some r)) =
  {| group_desired := group_desired g; group_max := group_max g;
     group_suspended := group_suspended g ∖ list_to_set ps |}.
Proof. intros Hr. unfold group_step. by rewrite Hr, bool_decide_eq_true_2. Qed.

Lemma group_step_update_returned name g mx ds r :
  returned (Some r) = true →
  group_step name g (Remote (update_auto_scaling_group name mx ds) (Some r)) =
  {| group_desired := ds; group_max := mx; group_suspended := group_suspended g |}.
Proof. intros Hr. unfold group_step. by rewrite Hr, bool_decide_eq_true_2. Qed.

Lemma group_step_suspend_returned name g ps r :
  returned (Some r) = true →
  group_step name g (Remote (suspend_processes name ps) (Some r)) =
  {| group_desired := group_desired g; group_max := group_max g;
     group_suspended := group_suspended g ∪ list_to_set ps |}.
Proof. intros Hr. unfold group_step. by rewrite Hr, bool_decide_eq_true_2. Qed.

(** ** The group when a run is cut short *)

Lemma group_step_read name args g r : group_step name g (read_event args r) = g.
Proof. unfold group_step, read_event. by destruct (returned r). Qed.

Lemma group_step_snapshot name args g r : group_step name g (snapshot_event args r) = g.
Proof. unfold group_step, snapshot_event. by destruct (returned r). Qed.

Lemma group_after_setup_returned args g r0 asg gs snap r3 :
  returned (Some r0) = true → returned (Some r3) = true →
  group_after (ASG_NAME args) g (setup_events args r0 asg gs snap r3) =
  {| group_desired := new_desired_capacity_of (DesiredCapacity asg);
     group_max := new_max_size_of (new_desired_capacity_of (DesiredCapacity asg)) (MaxSize asg);
     group_suspended := group_suspended g ∪ list_to_set SUSPEND_PROCESSES |}.
Proof.
  intros Hr0 Hr3. unfold group_after, after, setup_events. cbn [fold_left].
  rewrite group_step_snapshot, group_step_read.
  unfold suspend_event, scale_up_event.
  by rewrite group_step_suspend_returned, group_step_update_returned.
Qed.

Lemma cleanup_events_resume args asg o cl :
  cleanup_events args asg o cl → ∃ e, e ∈ cl ∧ is_resume e = true.
Proof.
  destruct o as [[]| |]; simpl.
  - intros (r0 & r1 & -> & _). eexists. split; [apply list_elem_of_here|done].
  - intros (msg & _ & [->|(r0 & -> & _)]); eexists; (split; [apply list_elem_of_here|done]).
  - intros [->|(r0 & -> & _)]; eexists; (split; [apply list_elem_of_here|done]).
Qed.

(** ** One node at a time *)

Section Sequential.

Variable args : Args.
Variables pre_desired_capacity new_desired_capacity : Z.

Local Abbreviation triple := (triple nodes_step).

(** [k] nodes are set to draining and not terminated. *)
Local Abbreviation draining k :=
  (λ s : Nodes, length (drained s) = (length (terminated s) + k)%nat).

Lemma recycle_sequential arns : ∀ i,
  triple (draining 0%nat)
    (recycle args pre_desired_capacity new_desired_capacity i arns)
    (λ _ s, draining 0%nat s ∨ draining 1%nat s)
    (λ s, draining 0%nat s ∨ draining 1%nat s).
Proof.
  induction arns as [|arn arns IH]; intros i; [apply triple_ret; by left|].
  simpl.
  eapply triple_bind with (Q := λ _, draining 0%nat).
  { apply wait_for_ecs_count_nodes; [done|]. by left. }
  intros ?. eapply triple_bind with (Q := λ _, draining 0%nat); [by apply triple_sleep|].
  intros ?. eapply triple_bind with (Q := λ _, draining 1%nat).
  { apply triple_invoke; intros s r Hs; [right|]; simpl; rewrite length_app; simpl; lia. }
  intros ?. eapply triple_bind with (Q := λ _, draining 1%nat).
  { apply triple_poll_until; [done|..].
    - intros s Hs. by right.
    - intros s msg Hs. by right.
    - intros s r e Hs _. right. by destruct r as [| | |[|??]|].
    - intros s r x Hs _ _. by destruct r as [| | |[|??]|].
    - intros s r x Hs _ _. by destruct r as [| | |[|??]|]. }
  intros ci. eapply triple_bind with (Q := λ _, draining 1%nat); [by apply triple_sleep|].
  intros ?. case_bool_decide; [apply triple_ret; by right|].
  eapply triple_bind with (Q := λ _, draining 0%nat).
  { apply triple_invoke; intros s r Hs; [left|]; simpl; rewrite length_app; simpl; lia. }
  intros ?. eapply triple_bind with (Q := λ _, draining 0%nat); [by apply triple_sleep|].
  intros ?. apply IH.
Qed.

End Sequential.

Lemma handler_sequential args event context rs :
  let s := after nodes_step no_nodes (trace (handler args event context rs)) in
  length (drained s) = length (terminated s) ∨
  length (drained s) = (length (terminated s) + 1)%nat.
Proof.
  intros s. subst s.
  destruct (handler_cases args event context rs)
    as [[Hcut _]|(r0 & asg & gs & snap & r3 & rs' & Heq)].
  { rewrite (setup_cut_nodes _ _ _ Hcut). by left. }
  rewrite Heq. simpl.
  assert (triple nodes_step (λ s, length (drained s) = (length (terminated s) + 0)%nat)
            (loop_and_cleanup args asg snap)
            (λ _ s, length (drained s) = (length (terminated s) + 0)%nat ∨
                    length (drained s) = (length (terminated s) + 1)%nat)
            (λ s, length (drained s) = (length (terminated s) + 0)%nat ∨
                  length (drained s) = (length (terminated s) + 1)%nat)) as H.
  { unfold loop_and_cleanup. eapply triple_bind; [apply recycle_sequential|].
    intros ?. by apply cleanup_nodes. }
  specialize (H no_nodes rs' eq_refl).
  destruct (outcome _); destruct H as [H|H]; rewrite H; [left|right|left|right|left|right];
    lia.
Qed.

(** ** The gate before a drain *)

Lemma drain_gated_snoc wanted h e :
  drain_gated wanted h → is_drain e = false → drain_gated wanted (h ++ [e]).
Proof.
  intros Hg He i cl arns st r Hi.
  apply lookup_snoc_Some in Hi as [[Hlt Hi]|[_ ->]]; [|done].
  destruct (Hg _ _ _ _ _ Hi) as (j & cl' & l & -> & Hj & Hn & Hs).
  exists j, cl', l. split_and!; try done; by apply lookup_app_l_Some.
Qed.

Lemma drain_gated_drain wanted h cl' listed cl arns st r :
  drain_gated wanted
    (h ++ [Remote (list_container_instances cl') (Some (RArns listed)); Sleep POLL_INTERVAL]) →
  Z.of_nat (length listed) >= wanted →
  drain_gated wanted
    ((h ++ [Remote (list_container_instances cl') (Some (RArns listed));
            Sleep POLL_INTERVAL]) ++
     [Remote (update_container_instances_state cl arns st) r]).
Proof.
  intros Hg Hn i cl0 arns0 st0 r0 Hi.
  apply lookup_snoc_Some in Hi as [[Hlt Hi]|[Hlen _]].
  - destruct (Hg _ _ _ _ _ Hi) as (j & cl'' & l & -> & Hj & Hn' & Hs).
    exists j, cl'', l. split_and!; try done; by apply lookup_app_l_Some.
  - exists (length h), cl', listed. rewrite length_app in Hlen. simpl in Hlen.
    split_and!; [lia| |done|].
    + rewrite <- app_assoc. by rewrite lookup_app_r, Nat.sub_diag by lia.
    + rewrite <- app_assoc. rewrite lookup_app_r by lia.
      by replace (S (length h) - length h)%nat with 1%nat by lia.
Qed.

Section Gate.

Variable args : Args.
Variables d wanted : Z.

Local Abbreviation triple := (triple (λ (h : Trace) e, h ++ [e])).

Lemma recycle_gated arns : ∀ i,
  triple (drain_gated wanted) (recycle args d wanted i arns)
    (λ _, drain_gated wanted) (drain_gated wanted).
Proof.
  induction arns as [|arn arns IH]; intros i; [by apply triple_ret|].
  simpl.
  eapply triple_bind with
    (Q := λ _ h, drain_gated wanted h ∧ ∃ h' cl l,
            h = h' ++ [Remote (list_container_instances cl) (Some (RArns l))] ∧
            Z.of_nat (length l) >= wanted).
  { apply triple_wait_for_ecs_count; [done|..].
    - intros h Hh. by apply drain_gated_snoc.
    - intros h r Hh _. by apply drain_gated_snoc.
    - intros h l Hh Hn. split; [by apply drain_gated_snoc|]. by eexists _, _, _.
    - intros h l Hh Hn. apply drain_gated_snoc; [by apply drain_gated_snoc|done]. }
  intros ?. eapply triple_bind with
    (Q := λ _ h, drain_gated wanted h ∧ ∃ h' cl l,
            h = h' ++ [Remote (list_container_instances cl) (Some (RArns l));
                       Sleep POLL_INTERVAL] ∧
            Z.of_nat (length l) >= wanted).
  { apply triple_sleep; [done|]. intros h (Hh & h' & cl & l & -> & Hn).
    split; [by apply drain_gated_snoc|]. exists h', cl, l. by rewrite <- app_assoc. }
  intros ?. eapply triple_bind with (Q := λ _, drain_gated wanted).
  { apply triple_invoke; intros h r (Hh & h' & cl & l & -> & Hn);
      by apply drain_gated_drain. }
  intros ?. eapply triple_bind with (Q := λ _, drain_gated wanted).
  { apply triple_poll_until; [done|..].
    - intros h Hh. by apply drain_gated_snoc.
    - intros h msg Hh. by apply drain_gated_snoc.
    - intros h r e Hh _. by apply drain_gated_snoc.
    - intros h r x Hh _ _. by apply drain_gated_snoc.
    - intros h r x Hh _ _. apply drain_gated_snoc; [by apply drain_gated_snoc|done]. }
  intros ci. eapply triple_bind with (Q := λ _, drain_gated wanted).
  { apply triple_sleep; [done|]. intros h Hh. by apply drain_gated_snoc. }
  intros ?. case_bool_decide; [by apply triple_ret|].
  eapply triple_bind with (Q := λ _, drain_gated wanted).
  { apply triple_invoke; intros h r Hh; by apply drain_gated_snoc. }
  intros ?. eapply triple_bind with (Q := λ _, drain_gated wanted).
  { apply triple_sleep; [done|]. intros h Hh. by apply drain_gated_snoc. }
  intros ?. apply IH.
Qed.

End Gate.

Lemma handler_gated args event context rs asg :
  read_settings (trace (handler args event context rs)) = Some asg →
  drain_gated (DesiredCapacity asg + 1) (trace (handler args event context rs)).
Proof.
  intros Hasg.
  destruct (handler_cases args event context rs)
    as [[Hcut _]|(r0 & asg' & gs & snap & r3 & rs' & Heq)].
  { intros i cl arns st r Hi. apply list_elem_of_lookup_2 in Hi.
    by destruct (setup_cut_no_drain _ _ _ _ _ _ Hcut Hi). }
  rewrite Heq in Hasg |- *. simpl in Hasg. simplify_eq. simpl.
  assert (triple (λ (h : Trace) e, h ++ [e]) (drain_gated (DesiredCapacity asg + 1))
            (loop_and_cleanup args asg snap)
            (λ _, drain_gated (DesiredCapacity asg + 1))
            (drain_gated (DesiredCapacity asg + 1))) as H.
  { unfold loop_and_cleanup, cleanup, new_desired_capacity_of.
    eapply triple_bind; [apply recycle_gated|].
    intros ?. eapply triple_bind with (Q := λ _, drain_gated (DesiredCapacity asg + 1)).
    { apply triple_invoke; intros h r Hh; by apply drain_gated_snoc. }
    intros ?. eapply triple_bind with (Q := λ _, drain_gated (DesiredCapacity asg + 1)).
    { apply triple_invoke; intros h r Hh; by apply drain_gated_snoc. }
    intros ?. by apply triple_ret. }
  assert (drain_gated (DesiredCapacity asg + 1) (setup_events args r0 asg gs snap r3)) as H0.
  { intros i cl arns st r Hi. by do 4 (destruct i as [|i]; [done|]). }
  specialize (H _ rs' H0). rewrite after_snoc in H.
  by destruct (outcome _).
Qed.

(** ** Failures of the drain wait *)

Lemma wait_drained_raises args arn pre r e rs :
  forallb still_running pre = true →
  unreadable_description r = Some e →
  wait_drained args arn (pre ++ r :: rs) =
  MkRun (busy_polls args arn pre ++
         [Remote (describe_container_instances (ECS_CLUSTER args) [arn]) (Some r)])
    (Raised e) rs.
Proof.
  intros Hpre Hr. induction pre as [|r' pre IH]; simpl.
  - by destruct r as [| | |[|??]|]; simplify_eq/=.
  - simpl in Hpre. apply andb_prop in Hpre as [Hr' Hpre].
    rewrite wait_drained_busy, IH by done. reflexivity.
Qed.

(** ** Calls that change the group or the cluster *)

Lemma invoke_trace c r rs : trace (invoke c (r :: rs)) = [Remote c (Some r)].
Proof. by destruct r. Qed.

Lemma invoke_outcome c r rs :
  returned (Some r) = false → ∀ x, outcome (invoke c (r :: rs)) ≠ Done x.
Proof. by destruct r. Qed.

Lemma handler_first_call args event context rs :
  (∃ r, trace (handler args event context rs) = [suspend_event args r] ∧
        returned r = false) ∨
  (∃ r0 tl, trace (handler args event context rs) = suspend_event args (Some r0) :: tl ∧
            returned (Some r0) = true).
Proof.
  unfold handler. rewrite bind_trace.
  destruct rs as [|r0 rs]; [left; by exists None|].
  rewrite invoke_trace.
  destruct (returned (Some r0)) eqn:Hr0.
  - right. by eexists _, _.
  - left. exists (Some r0). split; [|done].
    pose proof (invoke_outcome (suspend_processes (ASG_NAME args) SUSPEND_PROCESSES)
                  r0 rs Hr0) as Hout.
    destruct (outcome _) as [x| |]; [by destruct (Hout x)|done..].
Qed.

(** ** Runs in which every wait ends *)

Lemma recycle_patient args d arns : ∀ vs i k,
  length vs = length arns →
  forallb (visit_ok (d + 1)) vs = true →
  outcome (recycle args d (d + 1) i arns (patient_replies d i vs ++ k)) = Done tt ∧
  rest (recycle args d (d + 1) i arns (patient_replies d i vs ++ k)) = k.
Proof.
  induction arns as [|arn arns IH]; intros vs i k Hlen Hok; [by destruct vs|].
  destruct vs as [|v vs]; [done|]. simpl in Hlen, Hok.
  apply andb_prop in Hok as [Hv Hvs]. unfold visit_ok in Hv.
  apply andb_prop in Hv as [Hv Hidle]. apply andb_prop in Hv as [Hv Hbusy].
  apply andb_prop in Hv as [Hshort Hlisted].
  apply bool_decide_eq_true_1 in Hidle. apply bool_decide_eq_true_1 in Hlisted.
  cbn [recycle patient_replies]. unfold visit_replies.
  rewrite <- !app_assoc, <- !app_comm_cons.
  eapply bind_finishes; [by apply wait_for_ecs_count_first_enough|].
  eapply bind_finishes; [reflexivity|].
  eapply bind_finishes; [reflexivity|].
  rewrite <- !app_assoc, <- !app_comm_cons.
  eapply bind_finishes; [by apply wait_drained_first_idle|].
  eapply bind_finishes; [reflexivity|].
  simpl. case_bool_decide; [done|]. rewrite <- !app_comm_cons.
  eapply bind_finishes; [reflexivity|].
  eapply bind_finishes; [reflexivity|].
  apply IH; [lia|done].
Qed.

Lemma handler_patient args event context asg snap vs k :
  length vs = length snap →
  forallb (visit_ok (DesiredCapacity asg + 1)) vs = true →
  outcome (handler args event context
             (ROther :: RGroups [asg] :: RArns snap :: ROther ::
              patient_replies (DesiredCapacity asg) 0 vs ++ ROther :: ROther :: k)) = Done tt ∧
  rest (handler args event context
          (ROther :: RGroups [asg] :: RArns snap :: ROther ::
           patient_replies (DesiredCapacity asg) 0 vs ++ ROther :: ROther :: k)) = k.
Proof.
  intros Hlen Hok. unfold handler, get_asg.
  eapply bind_finishes; [reflexivity|].
  eapply bind_finishes; [reflexivity|].
  eapply bind_finishes; [reflexivity|].
  eapply bind_finishes; [reflexivity|].
  eapply bind_finishes; [reflexivity|].
  eapply bind_finishes with (a := tt) (rs' := ROther :: ROther :: k).
  { apply run_done. by apply recycle_patient. }
  done.
Qed.

(** ** The pace of a run *)

Lemma pace_after tr : ∀ s,
  after pace_step s tr =
  {| pace_slept := pace_slept s + seconds_slept tr;
     pace_due := pace_due s +
                 POLL_INTERVAL * Z.of_nat (length (filter (λ e, paced e = true) tr)) |}.
Proof.
  unfold after. induction tr as [|e tr IH]; intros s; simpl.
  { destruct s. simpl. f_equal; lia. }
  rewrite IH, filter_cons.
  destruct e as [[] r|secs]; simpl; try case_decide; try done; simpl; f_equal; lia.
Qed.

Section Pace.

Variable args : Args.
Variables d wanted : Z.

Local Abbreviation triple := (triple pace_step).
Local Abbreviation even := (λ s : Pace, pace_slept s = pace_due s).
Local Abbreviation owing := (λ s : Pace, pace_slept s + POLL_INTERVAL = pace_due s).

Lemma recycle_pace arns : ∀ i,
  triple even (recycle args d wanted i arns) (λ _, even) (λ s, even s ∨ owing s).
Proof.
  induction arns as [|arn arns IH]; intros i; [by apply triple_ret|].
  simpl.
  eapply triple_bind with (Q := λ _, owing).
  { apply triple_wait_for_ecs_count; [done|..].
    - intros s Hs. right. simpl. lia.
    - intros s r Hs _. right. simpl. lia.
    - intros s l Hs _. simpl. lia.
    - intros s l Hs _. simpl. lia. }
  intros ?. eapply triple_bind with (Q := λ _, even).
  { apply triple_sleep; [done|]. intros s Hs. simpl. lia. }
  intros ?. eapply triple_bind with (Q := λ _, even).
  { apply triple_invoke; intros s r Hs; [left|]; done. }
  intros ?. eapply triple_bind with (Q := λ _, owing).
  { apply triple_poll_until; [done|..].
    - intros s Hs. right. simpl. lia.
    - intros s msg Hs. right. simpl. lia.
    - intros s r e Hs _. right. simpl. lia.
    - intros s r x Hs _ _. simpl. lia.
    - intros s r x Hs _ _. simpl. lia. }
  intros ci. eapply triple_bind with (Q := λ _, even).
  { apply triple_sleep; [done|]. intros s Hs. simpl. lia. }
  intros ?. case_bool_decide; [by apply triple_ret|].
  eapply triple_bind with (Q := λ _, owing).
  { apply triple_invoke; intros s r Hs; [right|]; simpl; lia. }
  intros ?. eapply triple_bind with (Q := λ _, even).
  { apply triple_sleep; [done|]. intros s Hs. simpl. lia. }
  intros ?. apply IH.
Qed.

End Pace.

Lemma loop_and_cleanup_pace args asg snap :
  triple pace_step (λ s, pace_slept s = pace_due s) (loop_and_cleanup args asg snap)
    (λ _ s, pace_slept s = pace_due s)
    (λ s, pace_slept s = pace_due s ∨ pace_slept s + POLL_INTERVAL = pace_due s).
Proof.
  unfold loop_and_cleanup, cleanup.
  eapply triple_bind; [apply recycle_pace|].
  intros ?. eapply triple_bind with (Q := λ _ s, pace_slept s = pace_due s).
  { apply triple_invoke; intros s r Hs; [left|]; done. }
  intros ?. eapply triple_bind with (Q := λ _ s, pace_slept s = pace_due s).
  { apply triple_invoke; intros s r Hs; [left|]; done. }
  intros ?. by apply triple_ret.
Qed.

Lemma setup_cut_slept args tr : setup_cut args tr → seconds_slept tr = 0.
Proof.
  by intros [(r & ->)|[(r0 & r & ->)|[(r0 & asg & gs & r & ->)|(r0 & asg & gs & snap & r & ->)]]].
Qed.

Lemma handler_pace args event context rs :
  let run := handler args event context rs in
  let slept := seconds_slept (trace run) in
  let due := POLL_INTERVAL * paced_calls (trace run) in
  (slept = due ∨ slept + POLL_INTERVAL = due) ∧ (outcome run = Done tt → slept = due).
Proof.
  intros run slept due. subst run slept due. unfold paced_calls.
  destruct (handler_cases args event context rs)
    as [[Hcut Hout]|(r0 & asg & gs & snap & r3 & rs' & Heq)].
  { rewrite (setup_cut_slept _ _ Hcut), (setup_cut_after_scale_up _ _ Hcut).
    split; [by left|done]. }
  rewrite Heq. simpl.
  pose proof (loop_and_cleanup_pace args asg snap {| pace_slept := 0; pace_due := 0 |} rs'
                eq_refl) as H.
  rewrite pace_after in H. simpl in H.
  destruct (outcome _) as [[]| |]; [split; [by left|done]|split; [done|by intros ?]..].
Qed.

(** ** The group when an exception ends the run before the cleanup *)

Lemma group_step_update_suspended name g n mx ds r :
  group_suspended (group_step name g (Remote (update_auto_scaling_group n mx ds) r))
  = group_suspended g.
Proof. unfold group_step. destruct (returned r); [|done]. by case_bool_decide. Qed.

Lemma new_max_size_max d m :
  new_max_size_of (new_desired_capacity_of d) m = Z.max m (d + 1).
Proof. unfold new_max_size_of, new_desired_capacity_of. case_bool_decide; lia. Qed.

Lemma group_after_setup_calls args g0 o0 o1 o2 asg o3 :
  let g := group_after (ASG_NAME args) g0
             [suspend_event args o0; read_event args o1; snapshot_event args o2;
              scale_up_event args asg o3] in
  (returned o0 = true →
   group_suspended g = group_suspended g0 ∪ list_to_set SUSPEND_PROCESSES) ∧
  (returned o3 = true →
   group_desired g = DesiredCapacity asg + 1 ∧
   group_max g = Z.max (MaxSize asg) (DesiredCapacity asg + 1)).
Proof.
  intros g. subst g. unfold group_after, after. cbn [fold_left].
  rewrite group_step_snapshot, group_step_read. split.
  - intros Hr0. unfold scale_up_event. rewrite group_step_update_suspended.
    destruct o0 as [r0|]; [|done]. unfold suspend_event.
    by rewrite group_step_suspend_returned.
  - intros Hr3. destruct o3 as [r3|]; [|done]. unfold scale_up_event.
    rewrite group_step_update_returned by done. simpl.
    by rewrite new_max_size_max.
Qed.

Lemma scale_up_event_inj args asg asg' o o' :
  scale_up_event args asg' o' = scale_up_event args asg o →
  o' = o ∧ DesiredCapacity asg' + 1 = DesiredCapacity asg + 1 ∧
  Z.max (MaxSize asg') (DesiredCapacity asg' + 1) =
    Z.max (MaxSize asg) (DesiredCapacity asg + 1).
Proof.
  unfold scale_up_event. rewrite !new_max_size_max. unfold new_desired_capacity_of.
  by intros [= -> -> ->].
Qed.

(** A run that never calls [resume_processes] leaves the processes
    suspended when its suspend call returned, and the capacity raised when
    its scale-up call returned. *)
Lemma no_resume_group args event context rs g0 :
  let tr := trace (handler args event context rs) in
  let g := group_after (ASG_NAME args) g0 tr in
  Forall (λ e, is_resume e = false) tr →
  (∀ r0, tr !! 0%nat = Some (suspend_event args (Some r0)) → returned (Some r0) = true →
         group_suspended g = group_suspended g0 ∪ list_to_set SUSPEND_PROCESSES) ∧
  (∀ asg r3, tr !! 3%nat = Some (scale_up_event args asg (Some r3)) →
             returned (Some r3) = true →
             group_desired g = DesiredCapacity asg + 1 ∧
             group_max g = Z.max (MaxSize asg) (DesiredCapacity asg + 1)).
Proof.
  intros tr g Hno. subst tr g.
  destruct (handler_shape args event context rs)
    as [[Hcut _]|(r0' & asg' & gs' & snap' & r3' & lp & cl & Htr & Hlp & Hcl)].
  - destruct Hcut as [(r & Heq)|[(r0' & r & Heq)|[(r0' & asg' & gs' & r & Heq)|
      (r0' & asg' & gs' & snap' & r & Heq)]]]; rewrite Heq; clear Heq Hno.
    + split; [|by intros ? ? [=]]. intros r0 [= ->] Hr0.
      unfold group_after, after, suspend_event. cbn [fold_left].
      by rewrite group_step_suspend_returned.
    + split; [|by intros ? ? [=]]. intros r0 [= ->] Hr0.
      unfold group_after, after, suspend_event. cbn [fold_left].
      by rewrite group_step_read, group_step_suspend_returned.
    + split; [|by intros ? ? [=]]. intros r0 [= ->] Hr0.
      unfold group_after, after, suspend_event. cbn [fold_left].
      by rewrite group_step_snapshot, group_step_read, group_step_suspend_returned.
    + destruct (group_after_setup_calls args g0 (Some r0') (Some (RGroups (asg' :: gs')))
                  (Some (RArns snap')) asg' r) as [Hs Hc].
      split.
      * intros r0 [= ->] Hr0. by apply Hs.
      * intros asg r3 Hi%(inj Some) Hr3.
        apply scale_up_event_inj in Hi as (-> & <- & <-). by apply Hc.
  - rewrite Htr in Hno |- *.
    assert (cl = []) as ->.
    { destruct Hcl as [[-> _]|Hcl]; [done|].
      destruct (cleanup_events_resume _ _ _ _ Hcl) as (e & He & Hres).
      apply Forall_app in Hno as [_ Hno]. apply Forall_app in Hno as [_ Hno].
      rewrite Forall_forall in Hno. rewrite (Hno _ He) in Hres. discriminate Hres. }
    rewrite app_nil_r. unfold group_after. rewrite after_app.
    rewrite (loop_events_group _ _ _ _ Hlp).
    destruct (group_after_setup_calls args g0 (Some r0') (Some (RGroups (asg' :: gs')))
                (Some (RArns snap')) asg' (Some r3')) as [Hs Hc].
    split.
    + intros r0 [= ->] Hr0. by apply Hs.
    + intros asg r3 Hi%(inj Some) Hr3.
      apply scale_up_event_inj in Hi as ([= ->] & <- & <-). by apply Hc.
Qed.

(** ** Where the run sleeps *)

Section Rhythm.

Variable args : Args.
Variables d wanted : Z.

Local Abbreviation triple := (triple rhythm_step).
Local Abbreviation settled := (λ s : Rhythm, s = Settled).
Local Abbreviation owing := (λ s : Rhythm, s = Owing).
Local Abbreviation sound := (λ s : Rhythm, s ≠ Broken).

Lemma recycle_rhythm arns : ∀ i,
  triple settled (recycle args d wanted i arns) (λ _, settled) sound.
Proof.
  induction arns as [|arn arns IH]; intros i; [by apply triple_ret|].
  simpl.
  eapply triple_bind with (Q := λ _, owing).
  { apply triple_wait_for_ecs_count; [done|..].
    - by intros s ->.
    - by intros s r -> _.
    - by intros s l -> _.
    - by intros s l -> _. }
  intros ?. eapply triple_bind with (Q := λ _, settled).
  { apply triple_sleep; [done|]. by intros s ->. }
  intros ?. eapply triple_bind with (Q := λ _, settled).
  { apply triple_invoke; by intros s r ->. }
  intros ?. eapply triple_bind with (Q := λ _, owing).
  { apply triple_poll_until; [done|..].
    - by intros s ->.
    - by intros s msg ->.
    - by intros s r e -> _.
    - by intros s r x -> _ _.
    - by intros s r x -> _ _. }
  intros ci. eapply triple_bind with (Q := λ _, settled).
  { apply triple_sleep; [done|]. by intros s ->. }
  intros ?. case_bool_decide; [by apply triple_ret|].
  eapply triple_bind with (Q := λ _, owing).
  { apply triple_invoke; by intros s r ->. }
  intros ?. eapply triple_bind with (Q := λ _, settled).
  { apply triple_sleep; [done|]. by intros s ->. }
  intros ?. apply IH.
Qed.

End Rhythm.

Lemma loop_and_cleanup_rhythm args asg snap :
  triple rhythm_step (λ s, s = Settled) (loop_and_cleanup args asg snap)
    (λ _ s, s = Settled) (λ s, s ≠ Broken).
Proof.
  unfold loop_and_cleanup, cleanup.
  eapply triple_bind; [apply recycle_rhythm|].
  intros ?. eapply triple_bind with (Q := λ _ s, s = Settled).
  { apply triple_invoke; by intros s r ->. }
  intros ?. eapply triple_bind with (Q := λ _ s, s = Settled).
  { apply triple_invoke; by intros s r ->. }
  intros ?. by apply triple_ret.
Qed.

Lemma handler_rhythm args event context rs :
  let run := handler args event context rs in
  trace run = take 4 (trace run) ++ after_scale_up (trace run) ∧
  Forall (λ e, is_sleep e = false) (take 4 (trace run)) ∧
  rhythm (trace run) ≠ Broken ∧
  (outcome run = Done tt → rhythm (trace run) = Settled).
Proof.
  intros run. subst run. unfold rhythm.
  destruct (handler_cases args event context rs)
    as [[Hcut Hout]|(r0 & asg & gs & snap & r3 & rs' & Heq)].
  { rewrite (setup_cut_after_scale_up _ _ Hcut). split; [|split; [|split]].
    - destruct Hcut as [(r & ->)|[(r0 & r & ->)|[(r0 & asg & gs & r & ->)|
        (r0 & asg & gs & snap & r & ->)]]]; done.
    - destruct Hcut as [(r & ->)|[(r0 & r & ->)|[(r0 & asg & gs & r & ->)|
        (r0 & asg & gs & snap & r & ->)]]]; by repeat constructor.
    - done.
    - intros Hd. by destruct (Hout tt). }
  rewrite Heq. simpl.
  pose proof (loop_and_cleanup_rhythm args asg snap Settled rs' eq_refl) as H.
  rewrite take_0. split; [done|]. split; [by repeat constructor|].
  split; [by destruct (outcome _) as [[]| |]; [rewrite H|..]|].
  intros Hd. by rewrite Hd in H.
Qed.

(** ** A poll interval the sleep refuses *)

Lemma poll_until_refused {A} c (decode : Reply → Exn + A) stop poll_interval r x rs e :
  sleep_check poll_interval = Some e →
  (∀ msg, r ≠ RError msg) → decode r = inr x → stop x = false →
  poll_until c decode stop poll_interval (r :: rs) = MkRun [Remote c (Some r)] (Raised e) rs.
Proof.
  intros Hc Hr Hd Hs. destruct r as [| | | |msg]; simpl in *; rewrite ?Hd, ?Hs, ?Hc;
    try done.
  by destruct (Hr msg).
Qed.

Lemma wait_for_ecs_count_refused wanted cluster poll arns rs e :
  sleep_check poll = Some e → ¬ Z.of_nat (length arns) >= wanted →
  wait_for_ecs_count wanted cluster poll (RArns arns :: rs) =
  MkRun [Remote (list_container_instances cluster) (Some (RArns arns))] (Raised e) rs.
Proof.
  intros Hc Hn. unfold wait_for_ecs_count, mbind, M_bind, bind.
  rewrite (poll_until_refused _ _ _ _ (RArns arns) arns _ e); try done.
  by apply bool_decide_eq_false_2.
Qed.

(** * The claims *)

(** C2.  In every run, a terminate call is only made for a node whose
    1-based position in the snapshot is below the original desired count:
    the k-th call (counting from 0) is for the node at position k + 1, it is
    made when exactly the first k + 1 nodes have been set to draining, and
    k + 1 < originalDesiredCount.  So the node at a position >=
    originalDesiredCount is never passed to terminate, and no terminate call
    follows its drain. *)
Theorem absorbing_node_not_terminated args event context rs k t :
  let tr := trace (handler args event context rs) in
  terminations tr !! k = Some t →
  ∃ asg snap arn,
    read_settings tr = Some asg ∧ read_snapshot tr = Some snap ∧
    snap !! k = Some arn ∧ term_node t = Some arn ∧
    term_after t = take (S k) snap ∧
    Z.of_nat k + 1 < DesiredCapacity asg.
Proof.
  intros tr Hk. subst tr.
  destruct (handler_reads args event context rs)
    as [(_ & Hnil & _)|(asg & snap & Hasg & Hsnap)]; [by rewrite Hnil in Hk|].
  exists asg, snap.
  pose proof (handler_nodes args event context rs asg snap Hasg Hsnap) as H.
  simpl in H. destruct H as (ds & ws & ts & _ & _ & HT & _ & _ & Hok & _). simpl in HT.
  unfold terminations in Hk. rewrite HT in Hk.
  destruct (terms_ok_lookup _ _ _ _ _ Hok Hk) as (arn & Hl & Hfor).
  rewrite to_terminate_0 in Hl. apply lookup_take_Some in Hl as [Hl Hlt].
  exists arn. split_and!; try done.
  - by eapply term_for_node.
  - destruct Hfor as (_ & -> & _). simpl. rewrite to_terminate_0.
    rewrite take_take. f_equal. lia.
  - lia.
Qed.

(** C4.  In every run that completes, whatever the group was before and
    however many nodes were processed, the group ends with the desired
    capacity and the max size read at the start of the run, and with none of
    the processes of SUSPEND_PROCESSES suspended (the other processes are
    as they were before). *)
Theorem settings_restored args event context rs g0 asg :
  let run := handler args event context rs in
  outcome run = Done tt →
  read_settings (trace run) = Some asg →
  let g := group_after (ASG_NAME args) g0 (trace run) in
  group_desired g = DesiredCapacity asg ∧
  group_max g = MaxSize asg ∧
  group_suspended g = group_suspended g0 ∖ list_to_set SUSPEND_PROCESSES ∧
  ∀ p, p ∈ SUSPEND_PROCESSES → p ∉ group_suspended g.
Proof.
  intros run Hdone Hasg g. subst g run.
  destruct (handler_shape args event context rs)
    as [[_ Hout]|(r0 & asg' & gs & snap & r3 & lp & cl & Htr & Hlp & Hcl)];
    [by destruct (Hout tt)|].
  rewrite Htr in Hasg. rewrite setup_events_read_settings in Hasg. simplify_eq.
  destruct Hcl as [[_ Hout]|Hcl]; [by destruct (Hout tt)|].
  rewrite Hdone in Hcl. destruct Hcl as (r0' & r1' & -> & Hr0 & Hr1).
  set (g1 := after (group_step (ASG_NAME args)) g0 (setup_events args r0 asg gs snap r3)).
  assert (group_after (ASG_NAME args) g0 (trace (handler args event context rs)) =
          {| group_desired := DesiredCapacity asg; group_max := MaxSize asg;
             group_suspended := group_suspended g1 ∖ list_to_set SUSPEND_PROCESSES |})
    as ->.
  { rewrite Htr. unfold group_after. rewrite !after_app. fold g1.
    rewrite (loop_events_group _ _ _ _ Hlp). unfold after. cbn [fold_left].
    by rewrite (group_step_resume _ _ _ Hr0), (group_step_restore _ _ _ _ Hr1). }
  cbn [group_desired group_max group_suspended].
  pose proof (group_after_setup args g0 r0 asg gs snap r3) as Hs.
  unfold group_after in Hs. fold g1 in Hs.
  split_and!; [done..|]. intros p Hp. rewrite Hs. set_solver.
Qed.

(** C6.  For an original desired capacity d >= 0 and an original max size
    m >= d, the scale-up asks for desired d + 1 and max max(m, d + 1): the
    max grows by exactly one when d = m and is unchanged when d < m.  A run
    that reads these settings and the list of container instances makes the
    scale-up call with exactly these values, as its fourth call, and when it
    completes its last call is the restore with max m and desired d.  Every
    capacity update of the run (the scale-up and the restore) asks for a
    desired capacity that is at most the max size. *)
Theorem capacity_updates_valid d m :
  0 ≤ d → d ≤ m →
  (new_desired_capacity_of d = d + 1 ∧
   new_max_size_of (new_desired_capacity_of d) m = Z.max m (d + 1) ∧
   (d = m → new_max_size_of (new_desired_capacity_of d) m = m + 1) ∧
   (d < m → new_max_size_of (new_desired_capacity_of d) m = m)) ∧
  (∀ args event context r0 gs snap rs',
     returned (Some r0) = true →
     let run := handler args event context
                  (r0 :: RGroups ({| DesiredCapacity := d; MaxSize := m |} :: gs) ::
                   RArns snap :: rs') in
     trace run !! 3%nat =
       Some (Remote (update_auto_scaling_group (ASG_NAME args) (Z.max m (d + 1)) (d + 1))
               (head rs')) ∧
     d + 1 ≤ Z.max m (d + 1) ∧
     (outcome run = Done tt →
        ∃ r, last (trace run) =
               Some (Remote (update_auto_scaling_group (ASG_NAME args) m d) (Some r)))) ∧
  ∀ args event context rs i name max_size desired_capacity r,
    let tr := trace (handler args event context rs) in
    read_settings tr = Some {| DesiredCapacity := d; MaxSize := m |} →
    tr !! i = Some (Remote (update_auto_scaling_group name max_size desired_capacity) r) →
    desired_capacity ≤ max_size ∧
    ((desired_capacity = d + 1 ∧ max_size = Z.max m (d + 1)) ∨
     (desired_capacity = d ∧ max_size = m)).
Proof.
  intros Hd Hm. destruct (scale_up_arith d m Hd Hm) as (H1 & H2 & H3 & H4 & H5).
  split; [done|]. split.
  { intros args event context r0 gs snap rs' Hr0 run. subst run. split_and!.
    - rewrite <- H2. unfold new_desired_capacity_of.
      destruct r0; try discriminate Hr0; destruct rs' as [|[] rs'']; reflexivity.
    - lia.
    - intros Hdone.
      assert (read_settings
                (trace (handler args event context
                   (r0 :: RGroups ({| DesiredCapacity := d; MaxSize := m |} :: gs) ::
                    RArns snap :: rs'))) =
              Some {| DesiredCapacity := d; MaxSize := m |}) as Hasg
        by (destruct r0; try discriminate Hr0; reflexivity).
      destruct (handler_shape args event context
                  (r0 :: RGroups ({| DesiredCapacity := d; MaxSize := m |} :: gs) ::
                   RArns snap :: rs'))
        as [[_ Hout]|(r0' & asg & gs' & snap' & r3 & lp & cl & Htr & Hlp & Hcl)];
        [by destruct (Hout tt)|].
      rewrite Htr in Hasg |- *. rewrite setup_events_read_settings in Hasg. simplify_eq.
      destruct Hcl as [[_ Hout]|Hcl]; [by destruct (Hout tt)|].
      rewrite Hdone in Hcl. destruct Hcl as (r4 & r5 & -> & _).
      exists r5. by rewrite !last_app. }
  intros args event context rs i name mx ds r tr Hasg Hi. subst tr.
  apply list_elem_of_lookup_2 in Hi.
  destruct (handler_updates _ _ _ _ _ _ _ _ _ Hi eq_refl _ Hasg) as [He|He];
    unfold scale_up_event, restore_event in He; simpl in He; simplify_eq.
  - unfold new_max_size_of, new_desired_capacity_of. case_bool_decide; lia.
  - split; [done|]. by right.
Qed.

(** C9.  [handler] ignores both of its arguments: two calls with different
    event and context, the same command line and the same replies of the
    remote services make the same calls, end the same way and leave the
    same replies unread.  The group, the cluster, the processes and the
    delays of every event of a run are those of the command line and of the
    constants of the script. *)
Theorem handler_ignores_arguments args event context event' context' rs :
  handler args event context rs = handler args event' context' rs ∧
  Forall (configured args) (trace (handler args event context rs)).
Proof. split; [reflexivity|apply handler_configured]. Qed.

(** C7.  The drain wait returns only at a poll whose description shows no
    running task, and at the first such poll: every earlier poll found
    running tasks and was followed by one sleep of the poll interval.  As
    long as the polls find running tasks the wait goes on, however many
    they are. *)
Theorem drain_wait_returns_at_zero args arn rs :
  let run := wait_drained args arn rs in
  let poll := describe_container_instances (ECS_CLUSTER args) [arn] in
  (∀ ci, outcome run = Done ci →
     ∃ pre more,
       rs = pre ++ RInstances (ci :: more) :: rest run ∧
       forallb still_running pre = true ∧
       runningTasksCount ci = 0 ∧
       trace run = busy_polls args arn pre ++ [Remote poll (Some (RInstances (ci :: more)))]) ∧
  (∀ pre ci more rs',
     rs = pre ++ RInstances (ci :: more) :: rs' →
     forallb still_running pre = true → runningTasksCount ci = 0 →
     run = MkRun (busy_polls args arn pre ++ [Remote poll (Some (RInstances (ci :: more)))])
             (Done ci) rs') ∧
  (forallb still_running rs = true →
     run = MkRun (busy_polls args arn rs ++ [Remote poll None]) Pending []).
Proof.
  intros run poll. subst run poll. split_and!.
  - intros ci. apply wait_drained_done.
  - intros pre ci more rs' -> Hpre Hz. by apply wait_drained_first_idle.
  - apply wait_drained_all_busy.
Qed.

(** C8.  In every run, a call that sets container instances to draining
    comes after the first four calls, which are, in this order: suspend the
    processes, read the group, list the container instances (the snapshot),
    raise the capacity.  The call is for one container instance of the
    cluster, set to DRAINING, and that instance is in the snapshot. *)
Theorem drains_only_snapshot_nodes args event context rs i cl arns st r :
  let tr := trace (handler args event context rs) in
  tr !! i = Some (Remote (update_container_instances_state cl arns st) r) →
  ∃ r0 asg gs snap r3 arn,
    take 4 tr = setup_events args r0 asg gs snap r3 ∧
    (4 ≤ i)%nat ∧
    cl = ECS_CLUSTER args ∧ st = "DRAINING" ∧ arns = [arn] ∧ arn ∈ snap.
Proof.
  intros tr Hi. subst tr.
  pose proof (list_elem_of_lookup_2 _ _ _ Hi) as He.
  destruct (handler_shape args event context rs)
    as [[Hcut _]|(r0 & asg & gs & snap & r3 & lp & cl' & Htr & Hlp & Hcl)].
  { by destruct (setup_cut_no_drain _ _ _ _ _ _ Hcut He). }
  assert (read_settings (trace (handler args event context rs)) = Some asg ∧
          read_snapshot (trace (handler args event context rs)) = Some snap)
    as [Hasg Hsnap] by by rewrite Htr.
  pose proof (handler_nodes args event context rs asg snap Hasg Hsnap) as Hn.
  simpl in Hn. destruct Hn as (ds & ws & ts & HD & _ & _ & Hpre & _).
  simpl in HD.
  assert (∀ a, a ∈ arns → a ∈ snap) as Hin.
  { intros a Ha. pose proof (drain_call_drained _ no_nodes _ _ _ _ a He Ha) as Hd.
    rewrite HD in Hd. destruct Hpre as [k Hk]. rewrite to_drain_0 in Hk.
    assert (a ∈ take (Z.to_nat (DesiredCapacity asg `max` 1)) snap) as Hta
      by (rewrite Hk; apply elem_of_app; by left).
    apply elem_of_take in Hta as (j & Hj & _). by eapply list_elem_of_lookup_2. }
  exists r0, asg, gs, snap, r3.
  rewrite Htr in Hi, He |- *.
  assert (4 ≤ i)%nat as Hge.
  { destruct (decide (4 ≤ i)%nat) as [|Hlt]; [done|].
    do 4 (destruct i as [|i]; [done|]). lia. }
  apply elem_of_app in He as [He|He].
  { repeat (apply elem_of_cons in He as [He|He]; [try discriminate He|]).
    by apply elem_of_nil in He. }
  assert (loop_event args (Remote (update_container_instances_state cl arns st) r))
    as (-> & -> & Hlen).
  { apply elem_of_app in He as [He|He].
    - rewrite Forall_forall in Hlp. by apply Hlp.
    - destruct Hcl as [[-> _]|Hcl]; [by apply elem_of_nil in He|].
      unfold cleanup_events, resume_event, restore_event in Hcl.
      destruct (outcome _) as [[]| |].
      + destruct Hcl as (r0' & r1' & -> & _).
        repeat (apply elem_of_cons in He as [He|He]; [try discriminate He|]).
        by apply elem_of_nil in He.
      + destruct Hcl as (msg & _ & [->|(r0' & -> & _)]);
          repeat (apply elem_of_cons in He as [He|He]; [try discriminate He|]);
          by apply elem_of_nil in He.
      + destruct Hcl as [->|(r0' & -> & _)];
          repeat (apply elem_of_cons in He as [He|He]; [try discriminate He|]);
          by apply elem_of_nil in He. }
  destruct arns as [|arn [|??]]; try done.
  exists arn. split_and!; try done. apply Hin. by left.
Qed.

(** C3, as worded, fails: with a desired capacity of 1 and two container
    instances a and b in the cluster, the run drains a, stops the loop and
    completes; b is in the snapshot and is not the last node processed, and
    no terminate call is made for it. *)
Lemma unprocessed_node_not_terminated :
  outcome (main demo_args one_desired_two_nodes) = Done tt ∧
  ¬ terminated_once_all_but_last (trace (main demo_args one_desired_two_nodes)).
Proof.
  split; [reflexivity|]. intros H.
  specialize (H ["a"; "b"] "b" eq_refl).
  assert ("b" ∈ ["a"; "b"]) as Hb by set_solver.
  specialize (H Hb ltac:(by vm_compute)). vm_compute in H. discriminate H.
Qed.

(** C3, amended.  In every run, each terminate call passes
    ShouldDecrementDesiredCapacity=False, and the k-th terminate call is
    for the k-th node of the snapshot: its instance is the one of the last
    description read of that node, which shows no running task.  In a run
    that completes, the nodes terminated are, once each and in order, the
    first originalDesiredCount - 1 nodes of the snapshot (all of them when
    there are fewer), and the nodes drained are the first
    max(originalDesiredCount, 1): every node processed is terminated exactly
    once, except the one at which the loop stops early. *)
Theorem terminated_once_each args event context rs asg snap :
  let run := handler args event context rs in
  let tr := trace run in
  read_settings tr = Some asg → read_snapshot tr = Some snap →
  (∀ i instance decrement r,
     tr !! i = Some (Remote (terminate_instance_in_auto_scaling_group instance decrement) r) →
     decrement = false) ∧
  (∀ k t, terminations tr !! k = Some t →
     term_decrement t = false ∧
     ∃ arn ci, snap !! k = Some arn ∧ term_described t = Some ([arn], ci) ∧
               runningTasksCount ci = 0 ∧ term_instance t = ec2InstanceId ci) ∧
  (outcome run = Done tt →
     term_node <$> terminations tr =
       Some <$> take (Z.to_nat (DesiredCapacity asg - 1)) snap ∧
     drains tr = take (Z.to_nat (Z.max (DesiredCapacity asg) 1)) snap).
Proof.
  intros run tr Hasg Hsnap. subst tr run. split_and!.
  - intros i iid dec r. apply handler_terminate_calls.
  - intros k t Hk.
    pose proof (handler_nodes args event context rs asg snap Hasg Hsnap) as H.
    simpl in H. destruct H as (ds & ws & ts & _ & _ & HT & _ & _ & Hok & _).
    simpl in HT. unfold terminations in Hk. rewrite HT in Hk.
    destruct (terms_ok_lookup _ _ _ _ _ Hok Hk) as (arn & Hl & Hdec & _ & ci & Hfor).
    rewrite to_terminate_0 in Hl. apply lookup_take_Some in Hl as [Hl _].
    split; [done|]. by exists arn, ci.
  - intros Hdone.
    by destruct (handler_done_nodes args event context rs asg snap Hdone Hasg Hsnap)
      as (? & _ & ? & _).
Qed.

(** C10.  In a run that completes, the number of terminate calls is
    min(length of the snapshot, max(originalDesiredCount - 1, 0)); a run that
    is cut short has made at most that many.  In a run that completes with
    an original desired count of 0 and a node in the snapshot, the first
    node is set to draining and waited for until it runs no task, and no
    instance is terminated.  In a run that completes with a snapshot shorter
    than the original desired count, every node of the snapshot, the last
    one too, is terminated. *)
Theorem terminate_call_count args event context rs asg snap :
  let run := handler args event context rs in
  let tr := trace run in
  let d := DesiredCapacity asg in
  let bound := Z.to_nat (Z.min (Z.of_nat (length snap)) (Z.max (d - 1) 0)) in
  read_settings tr = Some asg → read_snapshot tr = Some snap →
  (length (terminations tr) ≤ bound)%nat ∧
  (outcome run = Done tt →
     length (terminations tr) = bound ∧
     (d = 0 → ∀ arn more, snap = arn :: more →
        drains tr = [arn] ∧ drain_waits tr = [arn] ∧ terminations tr = []) ∧
     (Z.of_nat (length snap) < d →
        drains tr = snap ∧ term_node <$> terminations tr = Some <$> snap)).
Proof.
  intros run tr d bound Hasg Hsnap. subst run tr d bound. split.
  { pose proof (handler_nodes args event context rs asg snap Hasg Hsnap) as H.
    simpl in H. destruct H as (ds & ws & ts & _ & _ & HT & _ & _ & Hok & _).
    simpl in HT. unfold terminations. rewrite HT.
    apply terms_ok_length in Hok. rewrite to_terminate_0, length_take in Hok. lia. }
  intros Hdone.
  destruct (handler_done_nodes args event context rs asg snap Hdone Hasg Hsnap)
    as (HD & HW & HN & HL).
  split_and!.
  - rewrite HL, length_take. lia.
  - intros Hd arn more ->. rewrite HW, HD, Hd. split_and!; try done.
    apply nil_length_inv. by rewrite HL, Hd.
  - intros Hlt. rewrite HD, HN, !take_ge by lia. done.
Qed.

(** C5, as worded, fails: when the description of a node raises an error in
    the loop, the error propagates out of [handler] and the run ends
    without any call of the cleanup; the group is left with the raised
    capacity and the processes suspended. *)
Lemma cleanup_skipped_on_error :
  let run := main demo_args two_nodes_describe_fails in
  let g := group_after "asg"
             {| group_desired := 2; group_max := 2; group_suspended := ∅ |} (trace run) in
  outcome run = Raised (ClientError "ThrottlingException") ∧
  ¬ cleanup_ran (trace run) ∧
  group_desired g = 3 ∧ group_max g = 3 ∧ "AZRebalance" ∈ group_suspended g.
Proof.
  split_and!; try reflexivity.
  - intros (name & processes & r & He). vm_compute in He.
    repeat (apply elem_of_cons in He as [He|He]; [discriminate He|]).
    by apply elem_of_nil in He.
Qed.

(** C5, amended.  The cleanup is executed at the end of every run of
    [handler] that returns, that is, in which no exception is raised,
    neither by a remote call nor by the script itself (the KeyError or
    IndexError of a response it cannot read): such a run ends with the call
    that resumes the processes followed by the call that restores the
    desired capacity and max size read at the start, and calls
    [resume_processes] nowhere else.  A run that ends with an exception
    either made no call of the cleanup at all: the exception was raised
    before the cleanup, and the run leaves the processes suspended when its
    suspend call had returned, and the desired capacity and max size at
    their raised values when its scale-up call had returned; or the
    exception is the error of a call of the cleanup itself. *)
Theorem cleanup_on_normal_exit args event context rs :
  let run := handler args event context rs in
  (outcome run = Done tt →
     ∃ asg body r0 r1,
       read_settings (trace run) = Some asg ∧
       trace run = body ++ [resume_event args (Some r0); restore_event args asg (Some r1)] ∧
       answered r0 ∧ answered r1 ∧
       Forall (λ e, is_resume e = false) body) ∧
  (∀ e, outcome run = Raised e →
     (Forall (λ ev, is_resume ev = false) (trace run) ∧
      ∀ g0,
        let g := group_after (ASG_NAME args) g0 (trace run) in
        (∀ r0, trace run !! 0%nat = Some (suspend_event args (Some r0)) →
               returned (Some r0) = true →
               group_suspended g = group_suspended g0 ∪ list_to_set SUSPEND_PROCESSES) ∧
        (∀ asg r3, trace run !! 3%nat = Some (scale_up_event args asg (Some r3)) →
                   returned (Some r3) = true →
                   group_desired g = DesiredCapacity asg + 1 ∧
                   group_max g = Z.max (MaxSize asg) (DesiredCapacity asg + 1))) ∨
     ∃ msg body,
       e = ClientError msg ∧ Forall (λ ev, is_resume ev = false) body ∧
       (trace run = body ++ [resume_event args (Some (RError msg))] ∨
        ∃ asg r0, trace run = body ++ [resume_event args (Some r0);
                                       restore_event args asg (Some (RError msg))])).
Proof.
  intros run. subst run.
  assert (Forall (λ ev, is_resume ev = false) (trace (handler args event context rs)) →
          Forall (λ ev, is_resume ev = false) (trace (handler args event context rs)) ∧
          ∀ g0,
            let g := group_after (ASG_NAME args) g0 (trace (handler args event context rs)) in
            (∀ r0, trace (handler args event context rs) !! 0%nat =
                     Some (suspend_event args (Some r0)) →
                   returned (Some r0) = true →
                   group_suspended g = group_suspended g0 ∪ list_to_set SUSPEND_PROCESSES) ∧
            (∀ asg r3, trace (handler args event context rs) !! 3%nat =
                         Some (scale_up_event args asg (Some r3)) →
                       returned (Some r3) = true →
                       group_desired g = DesiredCapacity asg + 1 ∧
                       group_max g = Z.max (MaxSize asg) (DesiredCapacity asg + 1))) as Hgroup.
  { intros Hno. split; [done|]. intros g0. by apply no_resume_group. }
  destruct (handler_shape args event context rs)
    as [[Hcut Hout]|(r0 & asg & gs & snap & r3 & lp & cl & Htr & Hlp & Hcl)].
  { split; [intros Hd; by destruct (Hout tt)|].
    intros e _. left. apply Hgroup. by eapply setup_cut_no_resume. }
  assert (Forall (λ e, is_resume e = false) (setup_events args r0 asg gs snap r3 ++ lp))
    as Hbody.
  { apply Forall_app. split; [by repeat constructor|by eapply loop_events_no_resume]. }
  split.
  - rewrite Htr, app_assoc.
    intros Hdone. destruct Hcl as [[_ Hout]|Hcl]; [by destruct (Hout tt)|].
    rewrite Hdone in Hcl. destruct Hcl as (r0' & r1' & -> & Hr0 & Hr1).
    exists asg, (setup_events args r0 asg gs snap r3 ++ lp), r0', r1'.
    split_and!; try done; by rewrite <- app_assoc.
  - intros e He. destruct Hcl as [[-> _]|Hcl].
    { left. apply Hgroup. by rewrite Htr, app_nil_r. }
    rewrite He in Hcl. destruct Hcl as (msg & -> & Hcl). right.
    rewrite Htr, app_assoc.
    exists msg, (setup_events args r0 asg gs snap r3 ++ lp).
    split_and!; try done. destruct Hcl as [->|(r0' & -> & _)]; [by left|].
    right. by exists asg, r0'.
Qed.



(** * More of the script *)

(** X1.  [get_asg] makes one call, [describe_auto_scaling_groups] for the
    one name it is given, and returns the first group of the reply, whatever
    follows it.  It raises [IndexError] when the reply lists no group,
    [KeyError] when the reply has no list of groups, and the error of the
    call when the call fails; with no reply yet it is waiting. *)
Theorem get_asg_first_group asg_name rs :
  let run := get_asg asg_name rs in
  let call := describe_auto_scaling_groups [asg_name] in
  match rs with
  | [] => run = MkRun [Remote call None] Pending []
  | r :: rs' =>
      trace run = [Remote call (Some r)] ∧ rest run = rs' ∧
      outcome run =
        match r with
        | RGroups (asg :: _) => Done asg
        | RGroups [] => Raised IndexError
        | RError msg => Raised (ClientError msg)
        | _ => Raised (KeyError "AutoScalingGroups")
        end
  end.
Proof. destruct rs as [|[|[|asg gs]| | |] rs']; by repeat split. Qed.

(** X2.  With a poll interval that [time.sleep] accepts (from 0 to
    SLEEP_MAX seconds), [wait_for_ecs_count] returns at the first listing
    that shows at least [wanted_count] container instances, and only there:
    each earlier listing showed fewer and was followed by one sleep of
    [poll_interval].  While the listings show fewer it keeps polling,
    however many they are. *)
Theorem wait_for_ecs_count_returns_when_enough wanted_count ecs_cluster poll_interval rs :
  0 ≤ poll_interval ≤ SLEEP_MAX →
  let run := wait_for_ecs_count wanted_count ecs_cluster poll_interval rs in
  let call := list_container_instances ecs_cluster in
  (outcome run = Done tt →
     ∃ pre arns,
       rs = pre ++ RArns arns :: rest run ∧
       forallb (short_listing wanted_count) pre = true ∧
       Z.of_nat (length arns) >= wanted_count) ∧
  (∀ pre arns rs',
     rs = pre ++ RArns arns :: rs' →
     forallb (short_listing wanted_count) pre = true →
     Z.of_nat (length arns) >= wanted_count →
     run = MkRun (short_polls ecs_cluster poll_interval pre ++
                  [Remote call (Some (RArns arns))]) (Done tt) rs') ∧
  (forallb (short_listing wanted_count) rs = true →
     run = MkRun (short_polls ecs_cluster poll_interval rs ++ [Remote call None])
             Pending []).
Proof.
  intros Hp%sleep_check_in_range run call. subst run call. split_and!.
  - by apply wait_for_ecs_count_done.
  - intros pre arns rs' -> Hpre Hn. by apply wait_for_ecs_count_first_enough.
  - by apply wait_for_ecs_count_all_short.
Qed.

(** X3.  With a poll interval that [time.sleep] accepts (from 0 to SLEEP_MAX
    seconds), a listing that fails ends [wait_for_ecs_count] with an
    exception: the error of the call, or [KeyError] for a response without
    the list.  The exception comes right after the failed call, with no
    sleep, after the polls that listed too few instances. *)
Theorem wait_for_ecs_count_raises_on_failure wanted_count ecs_cluster poll_interval
    pre r e rs :
  0 ≤ poll_interval ≤ SLEEP_MAX →
  forallb (short_listing wanted_count) pre = true →
  unreadable_listing r = Some e →
  wait_for_ecs_count wanted_count ecs_cluster poll_interval (pre ++ r :: rs) =
  MkRun (short_polls ecs_cluster poll_interval pre ++
         [Remote (list_container_instances ecs_cluster) (Some r)]) (Raised e) rs.
Proof. intros Hp%sleep_check_in_range. by apply wait_for_ecs_count_raises. Qed.

(** X4.  [cleanup] makes at most two calls: it resumes the processes, and
    only when that call has returned it resets the capacity, to the max size
    and the desired capacity it was given.  So when resuming fails the
    capacity is not reset.  When both calls return, the group has the given
    desired capacity and max size and none of the listed processes
    suspended, whatever it was before. *)
Theorem cleanup_resumes_then_resets asg_name desired_capacity max_size rs g :
  let run := cleanup asg_name desired_capacity max_size rs in
  (length (trace run) ≤ 2)%nat ∧
  (∀ i name mx ds r,
     trace run !! i = Some (Remote (update_auto_scaling_group name mx ds) r) →
     i = 1%nat ∧ name = asg_name ∧ mx = max_size ∧ ds = desired_capacity ∧
     ∃ r0, trace run !! 0%nat =
             Some (Remote (resume_processes asg_name SUSPEND_PROCESSES) (Some r0)) ∧
           returned (Some r0) = true) ∧
  (outcome run = Done tt →
     group_after asg_name g (trace run) =
     {| group_desired := desired_capacity; group_max := max_size;
        group_suspended := group_suspended g ∖ list_to_set SUSPEND_PROCESSES |}).
Proof.
  intros run. subst run.
  destruct (cleanup_trace asg_name desired_capacity max_size rs)
    as [(r & -> & Hr & Hout)|[(r0 & r & -> & Hr0 & Hr & Hout)|
        (r0 & r1 & -> & Hr0 & Hr1 & Hout & _)]].
  - split_and!; [simpl; lia| |intros Hd; by destruct (Hout tt)].
    intros [|[|i]] name mx ds r'; by intros [=].
  - split_and!; [simpl; lia| |intros Hd; by destruct (Hout tt)].
    intros [|[|i]] name mx ds r'; intros [=]; subst. split_and!; try done. by exists r0.
  - split_and!; [simpl; lia| |].
    + intros [|[|i]] name mx ds r'; intros [=]; subst. split_and!; try done. by exists r0.
    + intros _. unfold group_after, after. cbn [fold_left].
      by rewrite group_step_resume_returned, group_step_update_returned.
Qed.

(** X5.  When a run is cut short in the loop (an error of a call, or a wait
    that has not ended), after the calls that suspend the processes and
    raise the capacity have returned, and so never calls [resume_processes],
    the group is left with the raised desired capacity and max size and with
    the processes of SUSPEND_PROCESSES suspended. *)
Theorem cut_short_leaves_group_raised args event context rs g0 r0 asg gs snap r3 :
  let tr := trace (handler args event context rs) in
  take 4 tr = setup_events args r0 asg gs snap r3 →
  returned (Some r0) = true → returned (Some r3) = true →
  Forall (λ e, is_resume e = false) tr →
  group_after (ASG_NAME args) g0 tr =
  {| group_desired := DesiredCapacity asg + 1;
     group_max := Z.max (MaxSize asg) (DesiredCapacity asg + 1);
     group_suspended := group_suspended g0 ∪ list_to_set SUSPEND_PROCESSES |}.
Proof.
  intros tr Htake Hr0 Hr3 Hno. subst tr.
  assert (new_max_size_of (new_desired_capacity_of (DesiredCapacity asg)) (MaxSize asg)
          = Z.max (MaxSize asg) (DesiredCapacity asg + 1)) as Hmax.
  { unfold new_max_size_of, new_desired_capacity_of. case_bool_decide; lia. }
  pose proof (group_after_setup_returned args g0 r0 asg gs snap r3 Hr0 Hr3) as Hg.
  rewrite Hmax in Hg. unfold new_desired_capacity_of in Hg.
  destruct (handler_shape args event context rs)
    as [[Hcut _]|(r0' & asg' & gs' & snap' & r3' & lp & cl & Htr & Hlp & Hcl)].
  { destruct Hcut as [(r & Heq)|[(r0' & r & Heq)|[(r0' & asg' & gs' & r & Heq)|
      (r0' & asg' & gs' & snap' & r & Heq)]]]; rewrite Heq in Htake |- *;
      try discriminate Htake.
    simpl in Htake. by rewrite Htake. }
  rewrite Htr in Htake, Hno |- *.
  assert (take 4 (setup_events args r0' asg' gs' snap' r3' ++ lp ++ cl)
          = setup_events args r0' asg' gs' snap' r3') as Ht by done.
  rewrite Ht in Htake. rewrite Htake.
  assert (cl = []) as ->.
  { destruct Hcl as [[-> _]|Hcl]; [done|].
    destruct (cleanup_events_resume _ _ _ _ Hcl) as (e & He & Hres).
    apply Forall_app in Hno as [_ Hno]. apply Forall_app in Hno as [_ Hno].
    rewrite Forall_forall in Hno. rewrite (Hno _ He) in Hres. discriminate Hres. }
  rewrite app_nil_r. unfold group_after. rewrite after_app.
  rewrite (loop_events_group _ _ _ _ Hlp). exact Hg.
Qed.

(** X6.  A run that does not get the list of container instances (the
    suspend call, the description of the group or the listing fails, or has
    not returned) makes no other call: at most these three, in this order.
    It leaves the desired capacity and the max size of the group as they
    were, and when the suspend call has returned it leaves the processes of
    SUSPEND_PROCESSES suspended. *)
Theorem early_failure_leaves_processes_suspended args event context rs g0 :
  let tr := trace (handler args event context rs) in
  let g := group_after (ASG_NAME args) g0 tr in
  read_snapshot tr = None →
  (∃ r0 r1 r2, tr `prefix_of`
     [suspend_event args r0; read_event args r1; snapshot_event args r2]) ∧
  group_desired g = group_desired g0 ∧ group_max g = group_max g0 ∧
  (∀ r0, tr !! 0%nat = Some (suspend_event args (Some r0)) →
         returned (Some r0) = true →
         group_suspended g = group_suspended g0 ∪ list_to_set SUSPEND_PROCESSES).
Proof.
  intros tr g Hsnap. subst tr g.
  destruct (handler_shape args event context rs)
    as [[Hcut _]|(r0' & asg' & gs' & snap' & r3' & lp & cl & Htr & Hlp & Hcl)];
    [|by rewrite Htr in Hsnap].
  unfold group_after, after.
  destruct Hcut as [(r & Heq)|[(r0' & r & Heq)|[(r0' & asg' & gs' & r & Heq)|
    (r0' & asg' & gs' & snap' & r & Heq)]]]; rewrite Heq in Hsnap |- *;
    [| | |discriminate Hsnap]; cbn [fold_left];
    rewrite ?group_step_snapshot, ?group_step_read.
  - split_and!.
    + exists r, None, None. by eexists [_; _].
    + unfold suspend_event, group_step. destruct (returned r); [|done].
      by rewrite bool_decide_eq_true_2.
    + unfold suspend_event, group_step. destruct (returned r); [|done].
      by rewrite bool_decide_eq_true_2.
    + intros r0 [= ->] Hr0. unfold suspend_event.
      by rewrite group_step_suspend_returned.
  - split_and!.
    + exists (Some r0'), r, None. by eexists [_].
    + unfold suspend_event, group_step. destruct (returned (Some r0')); [|done].
      by rewrite bool_decide_eq_true_2.
    + unfold suspend_event, group_step. destruct (returned (Some r0')); [|done].
      by rewrite bool_decide_eq_true_2.
    + intros r0 [= ->] Hr0. unfold suspend_event.
      by rewrite group_step_suspend_returned.
  - split_and!.
    + exists (Some r0'), (Some (RGroups (asg' :: gs'))), r. by eexists [].
    + unfold suspend_event, group_step. destruct (returned (Some r0')); [|done].
      by rewrite bool_decide_eq_true_2.
    + unfold suspend_event, group_step. destruct (returned (Some r0')); [|done].
      by rewrite bool_decide_eq_true_2.
    + intros r0 [= ->] Hr0. unfold suspend_event.
      by rewrite group_step_suspend_returned.
Qed.

(** X7.  With no container instance in the cluster the loop is not entered:
    when its calls return, the run suspends the processes, reads the group,
    lists the (no) container instances, raises the capacity, and at once
    resumes the processes and resets the capacity; it waits for no instance
    and never sleeps. *)
Theorem empty_snapshot_run args event context r0 asg gs r3 r4 r5 rs :
  returned (Some r0) = true → returned (Some r3) = true →
  returned (Some r4) = true → returned (Some r5) = true →
  handler args event context
    (r0 :: RGroups (asg :: gs) :: RArns [] :: r3 :: r4 :: r5 :: rs) =
  MkRun (setup_events args r0 asg gs [] r3 ++
         [resume_event args (Some r4); restore_event args asg (Some r5)])
    (Done tt) rs.
Proof.
  intros H0 H3 H4 H5.
  destruct r0; try discriminate H0; destruct r3; try discriminate H3;
    destruct r4; try discriminate H4; destruct r5; try discriminate H5; reflexivity.
Qed.

(** X8.  The nodes are processed one at a time: in every run, at every
    point, the nodes set to draining are those for which a terminate call
    has been made and at most one more. *)
Theorem one_node_at_a_time args event context rs :
  let tr := trace (handler args event context rs) in
  (length (terminations tr) ≤ length (drains tr))%nat ∧
  (length (drains tr) ≤ length (terminations tr) + 1)%nat.
Proof.
  intros tr. subst tr. unfold drains, terminations.
  destruct (handler_sequential args event context rs) as [H|H]; rewrite H; lia.
Qed.

(** X9.  In every run, a container instance is set to draining only right
    after a sleep of the poll interval that follows directly a listing of
    the cluster showing at least originalDesiredCapacity + 1 container
    instances: the node is drained only once the cluster has been seen with
    the spare instance. *)
Theorem drain_only_after_capacity_seen args event context rs asg i cl arns st r :
  let tr := trace (handler args event context rs) in
  read_settings tr = Some asg →
  tr !! i = Some (Remote (update_container_instances_state cl arns st) r) →
  ∃ j cl' listed,
    i = S (S j) ∧
    tr !! j = Some (Remote (list_container_instances cl') (Some (RArns listed))) ∧
    Z.of_nat (length listed) >= DesiredCapacity asg + 1 ∧
    tr !! S j = Some (Sleep POLL_INTERVAL).
Proof.
  intros tr Hasg Hi. subst tr.
  exact (handler_gated args event context rs asg Hasg i cl arns st r Hi).
Qed.

(** X10.  A description of the node that fails ends the drain wait with an
    exception: the error of the call, [KeyError] for a response without the
    list of container instances, [IndexError] for an empty list (the
    container instance is not known to the cluster any more).  The exception
    comes right after the failed call, after the polls that found tasks
    running. *)
Theorem drain_wait_raises_on_failure args arn pre r e rs :
  forallb still_running pre = true →
  unreadable_description r = Some e →
  wait_drained args arn (pre ++ r :: rs) =
  MkRun (busy_polls args arn pre ++
         [Remote (describe_container_instances (ECS_CLUSTER args) [arn]) (Some r)])
    (Raised e) rs.
Proof. apply wait_drained_raises. Qed.

(** X11.  The run changes nothing before the processes are suspended: in
    every run, a call that updates the capacity, sets a container instance
    to draining or terminates an instance comes after the call of
    [suspend_processes], which is the first call of the run and has
    returned without error. *)
Theorem changes_only_after_suspend args event context rs i e :
  let tr := trace (handler args event context rs) in
  tr !! i = Some e →
  (∃ name mx ds r, e = Remote (update_auto_scaling_group name mx ds) r) ∨
  (∃ cl arns st r, e = Remote (update_container_instances_state cl arns st) r) ∨
  (∃ instance dec r, e = Remote (terminate_instance_in_auto_scaling_group instance dec) r) →
  (0 < i)%nat ∧
  ∃ r0, tr !! 0%nat = Some (suspend_event args (Some r0)) ∧ returned (Some r0) = true.
Proof.
  intros tr Hi He. subst tr.
  destruct (handler_first_call args event context rs)
    as [(r & Htr & _)|(r0 & tl & Htr & Hr0)]; rewrite Htr in Hi |- *.
  - destruct i as [|i]; [|done]. simpl in Hi. simplify_eq.
    unfold suspend_event in He. by destruct He as [(?&?&?&?&?)|[(?&?&?&?&?)|(?&?&?&?)]].
  - split; [|by exists r0].
    destruct i as [|i]; [|lia]. simpl in Hi. simplify_eq.
    unfold suspend_event in He. by destruct He as [(?&?&?&?&?)|[(?&?&?&?&?)|(?&?&?&?)]].
Qed.

(** X12.  The run completes whenever no call fails and every wait ends: for
    every group and every snapshot, if for each node the listings end up
    showing originalDesiredCapacity + 1 container instances and the
    descriptions of the node end up showing no running task, after however
    many polls, then [handler] returns, having read exactly the replies of
    its calls. *)
Theorem handler_completes_when_waits_end args event context asg snap vs k :
  length vs = length snap →
  forallb (visit_ok (DesiredCapacity asg + 1)) vs = true →
  let rs := ROther :: RGroups [asg] :: RArns snap :: ROther ::
            patient_replies (DesiredCapacity asg) 0 vs ++ ROther :: ROther :: k in
  outcome (handler args event context rs) = Done tt ∧
  rest (handler args event context rs) = k.
Proof. intros Hlen Hok rs. subst rs. by apply handler_patient. Qed.

(** X13.  No event of the setup is a sleep.  After the scale-up, each
    listing of the cluster, each description of a node and each terminate
    call is directly followed by one sleep of POLL_INTERVAL seconds, and the
    run sleeps at no other place and for no other length; only the last
    event of a run that is cut short may be such a call with no sleep after
    it.  So a run that completes has slept POLL_INTERVAL seconds times the
    number of these calls, and a run that is cut short has slept that long
    or one interval less. *)
Theorem one_sleep_per_poll args event context rs :
  let run := handler args event context rs in
  let slept := seconds_slept (trace run) in
  let due := POLL_INTERVAL * paced_calls (trace run) in
  (slept = due ∨ slept + POLL_INTERVAL = due) ∧
  (outcome run = Done tt → slept = due) ∧
  trace run = take 4 (trace run) ++ after_scale_up (trace run) ∧
  Forall (λ e, is_sleep e = false) (take 4 (trace run)) ∧
  rhythm (trace run) ≠ Broken ∧
  (outcome run = Done tt → rhythm (trace run) = Settled).
Proof.
  intros run slept due. subst run slept due.
  destruct (handler_pace args event context rs) as [H1 H2].
  destruct (handler_rhythm args event context rs) as (H3 & H4 & H5 & H6).
  by split_and!.
Qed.

(** X14.  With a poll interval that [time.sleep] refuses, a listing that
    shows too few container instances ends [wait_for_ecs_count] with the
    exception of the sleep, right after that listing and with no sleep:
    [ValueError] for a negative interval of at most SLEEP_MAX seconds,
    [OverflowError] for an interval of more than SLEEP_MAX seconds in
    absolute value.  A first listing that shows enough instances returns
    whatever the interval. *)
Theorem wait_for_ecs_count_refused_interval wanted_count ecs_cluster poll_interval arns rs :
  let run := wait_for_ecs_count wanted_count ecs_cluster poll_interval (RArns arns :: rs) in
  let call := list_container_instances ecs_cluster in
  (Z.of_nat (length arns) >= wanted_count →
   run = MkRun [Remote call (Some (RArns arns))] (Done tt) rs) ∧
  (¬ Z.of_nat (length arns) >= wanted_count → - SLEEP_MAX ≤ poll_interval < 0 →
   run = MkRun [Remote call (Some (RArns arns))] (Raised ValueError) rs) ∧
  (¬ Z.of_nat (length arns) >= wanted_count →
   poll_interval < - SLEEP_MAX ∨ SLEEP_MAX < poll_interval →
   run = MkRun [Remote call (Some (RArns arns))] (Raised OverflowError) rs).
Proof.
  intros run call. subst run call. split_and!.
  - apply wait_for_ecs_count_enough.
  - intros Hn Hp. apply wait_for_ecs_count_refused; [|done].
    unfold sleep_check. rewrite bool_decide_eq_false_2 by lia.
    by rewrite bool_decide_eq_true_2 by lia.
  - intros Hn Hp. apply wait_for_ecs_count_refused; [|done].
    unfold sleep_check. by rewrite bool_decide_eq_true_2.
Qed.

(** * The theorems at work on the example runs *)


Lemma absorbing_node_not_terminated_witness :
  ∃ asg snap arn,
    read_settings (trace (main demo_args two_nodes)) = Some asg ∧
    read_snapshot (trace (main demo_args two_nodes)) = Some snap ∧
    snap !! 0%nat = Some arn ∧
    term_node {| term_instance := "i-a"; term_decrement := false;
                 term_described :=
                   Some (["a"], {| ec2InstanceId := "i-a"; runningTasksCount := 0 |});
                 term_after := ["a"] |} = Some arn ∧
    ["a"] = take 1 snap ∧
    Z.of_nat 0 + 1 < DesiredCapacity asg.
Proof.
  apply (absorbing_node_not_terminated demo_args (PyBool false) (PyBool false) two_nodes 0
           {| term_instance := "i-a"; term_decrement := false;
              term_described :=
                Some (["a"], {| ec2InstanceId := "i-a"; runningTasksCount := 0 |});
              term_after := ["a"] |}).
  reflexivity.
Defined.

Lemma terminated_once_each_witness :
  term_node <$> terminations (trace (main demo_args two_nodes)) = Some <$> take 1 ["a"; "b"] ∧
  drains (trace (main demo_args two_nodes)) = take 2 ["a"; "b"].
Proof.
  apply (terminated_once_each demo_args (PyBool false) (PyBool false) two_nodes
           {| DesiredCapacity := 2; MaxSize := 2 |} ["a"; "b"]);
    reflexivity.
Defined.

Lemma settings_restored_witness :
  let g0 := {| group_desired := 2; group_max := 2; group_suspended := {["Launch"]} |} in
  let asg := {| DesiredCapacity := 2; MaxSize := 2 |} in
  let g := group_after (ASG_NAME demo_args) g0 (trace (main demo_args two_nodes)) in
  group_desired g = DesiredCapacity asg ∧ group_max g = MaxSize asg ∧
  group_suspended g = group_suspended g0 ∖ list_to_set SUSPEND_PROCESSES ∧
  ∀ p, p ∈ SUSPEND_PROCESSES → p ∉ group_suspended g.
Proof.
  intros g0 asg.
  exact (settings_restored demo_args (PyBool false) (PyBool false) two_nodes g0 asg
           eq_refl eq_refl).
Defined.

Lemma cleanup_on_normal_exit_witness :
  (∃ asg body r0 r1,
     read_settings (trace (main demo_args two_nodes)) = Some asg ∧
     trace (main demo_args two_nodes) =
       body ++ [resume_event demo_args (Some r0); restore_event demo_args asg (Some r1)] ∧
     answered r0 ∧ answered r1 ∧ Forall (λ e, is_resume e = false) body) ∧
  (let run := main demo_args two_nodes_describe_fails in
   let g := group_after (ASG_NAME demo_args)
              {| group_desired := 2; group_max := 2; group_suspended := ∅ |} (trace run) in
   outcome run = Raised (ClientError "ThrottlingException") ∧
   Forall (λ ev, is_resume ev = false) (trace run) ∧
   group_suspended g = ∅ ∪ list_to_set SUSPEND_PROCESSES ∧
   group_desired g = 2 + 1 ∧ group_max g = Z.max 2 (2 + 1)).
Proof.
  split.
  { apply (proj1 (cleanup_on_normal_exit demo_args (PyBool false) (PyBool false) two_nodes)).
    reflexivity. }
  intros run g. split; [reflexivity|].
  destruct (proj2 (cleanup_on_normal_exit demo_args (PyBool false) (PyBool false)
                     two_nodes_describe_fails) _ eq_refl)
    as [[Hno Hg]|(msg & body & _ & _ & [Hcl|(asg & r0 & Hcl)])].
  - split; [exact Hno|].
    destruct (Hg {| group_desired := 2; group_max := 2; group_suspended := ∅ |})
      as [Hs Hc].
    split; [exact (Hs ROther eq_refl eq_refl)|].
    exact (Hc {| DesiredCapacity := 2; MaxSize := 2 |} ROther eq_refl eq_refl).
  - apply (f_equal last) in Hcl. rewrite last_snoc in Hcl. discriminate Hcl.
  - apply (f_equal last) in Hcl. rewrite last_app in Hcl. discriminate Hcl.
Defined.

Lemma capacity_updates_valid_witness :
  (0 ≤ 2 ∧ 2 ≤ 2) ∧
  trace (handler demo_args (PyBool false) (PyBool false) two_nodes) !! 3%nat =
    Some (Remote (update_auto_scaling_group (ASG_NAME demo_args) (Z.max 2 (2 + 1)) (2 + 1))
            (Some ROther)) ∧
  3 ≤ 3 ∧ ((3 = 2 + 1 ∧ 3 = Z.max 2 (2 + 1)) ∨ (3 = 2 ∧ 3 = 2)).
Proof.
  split; [lia|].
  destruct (capacity_updates_valid 2 2 ltac:(lia) ltac:(lia)) as (_ & Hrun & Hall).
  split.
  - exact (proj1 (Hrun demo_args (PyBool false) (PyBool false) ROther [] ["a"; "b"]
                    (skipn 3 two_nodes) eq_refl)).
  - apply (Hall demo_args (PyBool false) (PyBool false) two_nodes 3%nat "asg" 3 3
             (Some ROther)); reflexivity.
Defined.

Lemma drain_wait_returns_at_zero_witness :
  wait_drained demo_args "a" polls_5_2_0 =
  MkRun (busy_polls demo_args "a" [busy "i-a" 5; busy "i-a" 2] ++
         [Remote (describe_container_instances "cluster" ["a"]) (Some (idle "i-a"))])
    (Done {| ec2InstanceId := "i-a"; runningTasksCount := 0 |}) [].
Proof.
  apply (proj1 (proj2 (drain_wait_returns_at_zero demo_args "a" polls_5_2_0))
           [busy "i-a" 5; busy "i-a" 2]
           {| ec2InstanceId := "i-a"; runningTasksCount := 0 |} [] []);
    reflexivity.
Defined.

Lemma drains_only_snapshot_nodes_witness :
  ∃ r0 asg gs snap r3 arn,
    take 4 (trace (main demo_args two_nodes)) = setup_events demo_args r0 asg gs snap r3 ∧
    (4 ≤ 6)%nat ∧
    "cluster" = ECS_CLUSTER demo_args ∧ "DRAINING" = "DRAINING" ∧ ["a"] = [arn] ∧ arn ∈ snap.
Proof.
  apply (drains_only_snapshot_nodes demo_args (PyBool false) (PyBool false) two_nodes 6
           "cluster" ["a"] "DRAINING" (Some ROther)).
  reflexivity.
Defined.

Lemma terminate_call_count_witness :
  length (terminations (trace (main demo_args three_desired_two_nodes))) = 2%nat ∧
  drains (trace (main demo_args three_desired_two_nodes)) = ["a"; "b"].
Proof.
  destruct (terminate_call_count demo_args (PyBool false) (PyBool false)
              three_desired_two_nodes {| DesiredCapacity := 3; MaxSize := 5 |} ["a"; "b"]
              eq_refl eq_refl) as [_ H].
  destruct (H eq_refl) as (Hn & _ & Hshort).
  split; [exact Hn|]. apply Hshort. simpl. lia.
Defined.

(** With no node desired and one node in the cluster, the node is drained and
    waited for, and nothing is terminated. *)
Example none_desired_run :
  drains (trace (main demo_args none_desired_one_node)) = ["a"] ∧
  drain_waits (trace (main demo_args none_desired_one_node)) = ["a"] ∧
  terminations (trace (main demo_args none_desired_one_node)) = [].
Proof. by split_and!. Qed.

Lemma wait_for_ecs_count_returns_when_enough_witness :
  wait_for_ecs_count 3 "cluster" 15 [RArns ["a"; "b"]; RArns ["a"; "b"; "n"]; ROther] =
  MkRun (short_polls "cluster" 15 [RArns ["a"; "b"]] ++
         [Remote (list_container_instances "cluster") (Some (RArns ["a"; "b"; "n"]))])
    (Done tt) [ROther].
Proof.
  apply (proj1 (proj2 (wait_for_ecs_count_returns_when_enough 3 "cluster" 15
                         [RArns ["a"; "b"]; RArns ["a"; "b"; "n"]; ROther]
                         ltac:(unfold SLEEP_MAX; lia)))
           [RArns ["a"; "b"]] ["a"; "b"; "n"] [ROther]);
    [reflexivity|reflexivity|simpl; lia].
Defined.

Lemma wait_for_ecs_count_raises_on_failure_witness :
  wait_for_ecs_count 3 "cluster" 15 ([RArns ["a"]] ++ RError "Throttled" :: [ROther]) =
  MkRun (short_polls "cluster" 15 [RArns ["a"]] ++
         [Remote (list_container_instances "cluster") (Some (RError "Throttled"))])
    (Raised (ClientError "Throttled")) [ROther].
Proof.
  apply (wait_for_ecs_count_raises_on_failure 3 "cluster" 15 [RArns ["a"]]
           (RError "Throttled") (ClientError "Throttled") [ROther]);
    [unfold SLEEP_MAX; lia|reflexivity|reflexivity].
Defined.

Lemma cleanup_resumes_then_resets_witness :
  let g := {| group_desired := 4; group_max := 4;
              group_suspended := list_to_set SUSPEND_PROCESSES |} in
  group_after "asg" g (trace (cleanup "asg" 3 3 [ROther; ROther])) =
  {| group_desired := 3; group_max := 3;
     group_suspended := group_suspended g ∖ list_to_set SUSPEND_PROCESSES |}.
Proof.
  intros g.
  exact (proj2 (proj2 (cleanup_resumes_then_resets "asg" 3 3 [ROther; ROther] g)) eq_refl).
Defined.

Lemma cut_short_leaves_group_raised_witness :
  let g0 := {| group_desired := 2; group_max := 2; group_suspended := ∅ |} in
  group_after (ASG_NAME demo_args) g0 (trace (main demo_args two_nodes_describe_fails)) =
  {| group_desired := 2 + 1; group_max := Z.max 2 (2 + 1);
     group_suspended := group_suspended g0 ∪ list_to_set SUSPEND_PROCESSES |}.
Proof.
  intros g0.
  apply (cut_short_leaves_group_raised demo_args (PyBool false) (PyBool false)
           two_nodes_describe_fails g0 ROther {| DesiredCapacity := 2; MaxSize := 2 |}
           [] ["a"; "b"] ROther); try reflexivity.
  by repeat constructor.
Defined.

Lemma early_failure_leaves_processes_suspended_witness :
  let g0 := {| group_desired := 2; group_max := 2; group_suspended := ∅ |} in
  let tr := trace (main demo_args [ROther; RGroups []]) in
  group_desired (group_after (ASG_NAME demo_args) g0 tr) = 2 ∧
  group_max (group_after (ASG_NAME demo_args) g0 tr) = 2.
Proof.
  intros g0 tr.
  destruct (early_failure_leaves_processes_suspended demo_args (PyBool false) (PyBool false)
              [ROther; RGroups []] g0 eq_refl) as (_ & Hd & Hm & _).
  split; [exact Hd|exact Hm].
Defined.

Lemma empty_snapshot_run_witness :
  let asg := {| DesiredCapacity := 0; MaxSize := 2 |} in
  handler demo_args (PyBool false) (PyBool false)
    [ROther; RGroups [asg]; RArns []; ROther; ROther; ROther] =
  MkRun (setup_events demo_args ROther asg [] [] ROther ++
         [resume_event demo_args (Some ROther); restore_event demo_args asg (Some ROther)])
    (Done tt) [].
Proof.
  intros asg.
  apply (empty_snapshot_run demo_args (PyBool false) (PyBool false) ROther asg []
           ROther ROther ROther []); reflexivity.
Defined.

Lemma drain_only_after_capacity_seen_witness :
  ∃ j cl' listed,
    6%nat = S (S j) ∧
    trace (handler demo_args (PyBool false) (PyBool false) two_nodes) !! j =
      Some (Remote (list_container_instances cl') (Some (RArns listed))) ∧
    Z.of_nat (length listed) >= DesiredCapacity {| DesiredCapacity := 2; MaxSize := 2 |} + 1 ∧
    trace (handler demo_args (PyBool false) (PyBool false) two_nodes) !! S j =
      Some (Sleep POLL_INTERVAL).
Proof.
  apply (drain_only_after_capacity_seen demo_args (PyBool false) (PyBool false) two_nodes
           {| DesiredCapacity := 2; MaxSize := 2 |} 6 "cluster" ["a"] "DRAINING"
           (Some ROther)); reflexivity.
Defined.

Lemma drain_wait_raises_on_failure_witness :
  wait_drained demo_args "a" ([busy "i-a" 2] ++ RInstances [] :: [ROther]) =
  MkRun (busy_polls demo_args "a" [busy "i-a" 2] ++
         [Remote (describe_container_instances (ECS_CLUSTER demo_args) ["a"])
            (Some (RInstances []))])
    (Raised IndexError) [ROther].
Proof.
  apply (drain_wait_raises_on_failure demo_args "a" [busy "i-a" 2] (RInstances [])
           IndexError [ROther]); reflexivity.
Defined.

Lemma changes_only_after_suspend_witness :
  (0 < 3)%nat ∧
  ∃ r0, trace (handler demo_args (PyBool false) (PyBool false) two_nodes) !! 0%nat =
          Some (suspend_event demo_args (Some r0)) ∧
        returned (Some r0) = true.
Proof.
  apply (changes_only_after_suspend demo_args (PyBool false) (PyBool false) two_nodes 3
           (Remote (update_auto_scaling_group "asg" 3 3) (Some ROther)));
    [reflexivity|].
  left. by eexists _, _, _, _.
Defined.

Lemma handler_completes_when_waits_end_witness :
  let asg := {| DesiredCapacity := 2; MaxSize := 2 |} in
  let rs := ROther :: RGroups [asg] :: RArns ["a"; "b"] :: ROther ::
            patient_replies (DesiredCapacity asg) 0 two_visits ++ ROther :: ROther :: [] in
  outcome (handler demo_args (PyBool false) (PyBool false) rs) = Done tt ∧
  rest (handler demo_args (PyBool false) (PyBool false) rs) = [].
Proof.
  intros asg.
  apply (handler_completes_when_waits_end demo_args (PyBool false) (PyBool false) asg
           ["a"; "b"] two_visits []); reflexivity.
Defined.

Lemma one_sleep_per_poll_witness :
  seconds_slept (trace (handler demo_args (PyBool false) (PyBool false) two_nodes)) =
  POLL_INTERVAL * paced_calls (trace (handler demo_args (PyBool false) (PyBool false) two_nodes)) ∧
  rhythm (trace (handler demo_args (PyBool false) (PyBool false) two_nodes)) = Settled.
Proof.
  destruct (one_sleep_per_poll demo_args (PyBool false) (PyBool false) two_nodes)
    as (_ & Hslept & _ & _ & _ & Hrhythm).
  split; [apply Hslept|apply Hrhythm]; reflexivity.
Defined.

Lemma wait_for_ecs_count_refused_interval_witness :
  wait_for_ecs_count 3 "cluster" (-1) [RArns ["a"; "b"]] =
  MkRun [Remote (list_container_instances "cluster") (Some (RArns ["a"; "b"]))]
    (Raised ValueError) [].
Proof.
  apply (proj1 (proj2 (wait_for_ecs_count_refused_interval 3 "cluster" (-1) ["a"; "b"] []))).
  - simpl. lia.
  - unfold SLEEP_MAX. lia.
Defined.
